(** * translate_ddp: per-rank batch translation, as a state-and-exception program

    A shallow embedding of [examples/nlp/machine_translation/translate_ddp.py].
    The script is one sequential procedure, [translate], run once per rank.
    Its own logic is glue: branch on a file extension, branch on language
    codes, build a path, loop over batches, count sentences, write two files.
    The framework objects it drives (model, tokenizers, detokenizers, tarred
    datasets) are opaque and appear here as an interface, [NeMo]. *)

From Stdlib Require Import Ascii.
From stdpp Require Import base gmap list strings pretty.

(** ** Python builtins used by the script *)

Module Py.

(** The newline character appended by [write(x + '\n')]. *)
Definition nl : string := String "010"%char "".

(** [s.startswith(p)]. *)
Definition startswith (s p : string) : bool := String.prefix p s.

(** [s.endswith(suf)]: [s] is [suf], or the tail of [s] ends with [suf]. *)
Fixpoint endswith (s suf : string) : bool :=
  String.eqb s suf ||
  match s with
  | EmptyString => false
  | String _ s' => endswith s' suf
  end.

(** Truth value of a [str]: non-empty. *)
Definition truthy (s : string) : bool := negb (String.eqb s "").

(** [str.isspace], for the code points below 128 (the strings here are byte
    strings; the Unicode spaces beyond ASCII are not told apart). *)
Definition isspace (c : ascii) : bool :=
  let n := nat_of_ascii c in
  ((9 <=? n)%nat && (n <=? 13)%nat) || ((28 <=? n)%nat && (n <=? 32)%nat).

Definition flush (word : list ascii) : list string :=
  match word with
  | [] => []
  | _ => [String.string_of_list_ascii word]
  end.

(** [s.split()] with no separator: maximal runs of non-space characters. *)
Fixpoint split_go (word : list ascii) (s : string) : list string :=
  match s with
  | EmptyString => flush word
  | String c s' =>
      if isspace c then flush word ++ split_go [] s'
      else split_go (word ++ [c]) s'
  end.
Definition split (s : string) : list string := split_go [] s.

(** [os.path.join(a, b)] of posixpath, for two components. *)
Definition os_path_join (a b : string) : string :=
  if startswith b "/" then b
  else if String.eqb a "" || endswith a "/" then a +:+ b
  else a +:+ "/" +:+ b.

(** No character of [s] is a slash. *)
Fixpoint slash_free (s : string) : bool :=
  match s with
  | EmptyString => true
  | String c s' => negb (Ascii.eqb c "/") && slash_free s'
  end.

(** [s == '/' * len(s)]. *)
Fixpoint all_slashes (s : string) : bool :=
  match s with
  | EmptyString => true
  | String c s' => Ascii.eqb c "/" && all_slashes s'
  end.

(** [s.rstrip('/')]. *)
Fixpoint rstrip_slash (s : string) : string :=
  match s with
  | EmptyString => ""
  | String c s' =>
      match rstrip_slash s' with
      | EmptyString => if Ascii.eqb c "/" then "" else String c ""
      | r => String c r
      end
  end.

(** [(p[:i], p[i:])] for [i = p.rfind('/') + 1]. *)
Fixpoint cut_after_last_slash (p : string) : string * string :=
  match p with
  | EmptyString => ("", "")
  | String c p' =>
      match cut_after_last_slash p' with
      | (EmptyString, t) =>
          if Ascii.eqb c "/" then (String c "", t) else ("", String c t)
      | (h, t) => (String c h, t)
      end
  end.

(** [os.path.split(p)] of posixpath: the head loses its trailing slashes
    unless it consists of slashes only. *)
Definition os_path_split (p : string) : string * string :=
  let '(head, tail) := cut_after_last_slash p in
  (if truthy head && negb (all_slashes head) then rstrip_slash head else head,
   tail).

(** The exceptions the procedure can raise by itself, and those of the
    calls into [os] that it makes. *)
Inductive exn :=
| UnboundLocalError (name : string)
| ValueError (msg : string)
| TypeError (msg : string)
| IndexError (msg : string)
| FileExistsError (path : string)
| IsADirectoryError (path : string)
| NotADirectoryError (path : string)
| FileNotFoundError (path : string).

(** The subclasses of [OSError] among them. *)
Definition is_OSError (e : exn) : bool :=
  match e with
  | FileExistsError _ | IsADirectoryError _
  | NotADirectoryError _ | FileNotFoundError _ => true
  | _ => false
  end.

Inductive outcome (A : Type) :=
| Return (a : A)
| Raise (e : exn).
Arguments Return {A} a.
Arguments Raise {A} e.

End Py.
Import Py.

(** ** The process state the script acts on *)

Inductive node :=
| Dir
| File (chunks : list string).

Global Instance node_eq_dec : EqDecision node.
Proof. solve_decision. Defined.

Inductive fs_event :=
| EvOpen (path : string)
| EvWrite (path chunk : string)
| EvClose (path : string).

(** A file's content is the sequence of strings written to it, in order.
    [opened] lists the paths with a live file object; [trace] records every
    open, write and close, oldest first. *)
Record world := World {
  environ : gmap string string;
  process_group : option (string * nat * nat);
  grad_enabled : bool;
  fs : gmap string node;
  opened : list string;
  trace : list fs_event;
  log : list string
}.

(** Computations: a state transformer that keeps the state when it raises. *)
Definition M (A : Type) : Type := world → world * outcome A.

Global Instance M_ret : MRet M := λ A a w, (w, Return a).
Global Instance M_bind : MBind M := λ A B f m w,
  match m w with
  | (w', Return a) => f a w'
  | (w', Raise e) => (w', Raise e)
  end.
Definition raise {A} (e : exn) : M A := λ w, (w, Raise e).
Definition lift {A} (o : outcome A) : M A := λ w, (w, o).

(** Reading a local variable that may not have been assigned. *)
Definition use {A} (name : string) (v : option A) : M A :=
  match v with
  | Some a => mret a
  | None => raise (UnboundLocalError name)
  end.

Fixpoint for_each {A} (l : list A) (body : A → M unit) : M unit :=
  match l with
  | [] => mret tt
  | a :: l' => body a ;; for_each l' body
  end.

(** [for i, a in enumerate(l)] threading one mutable local of type [S]. *)
Fixpoint for_enumerate {A S} (i : nat) (l : list A) (s : S)
    (body : nat → A → S → M S) : M S :=
  match l with
  | [] => mret s
  | a :: l' => s' ← body i a s; for_enumerate (Datatypes.S i) l' s' body
  end.

(** *** Effects *)

Definition set_w_environ (k v : string) : M unit :=
  λ w, (World (<[k := v]> (environ w)) (process_group w) (grad_enabled w)
          (fs w) (opened w) (trace w) (log w), Return tt).

(** [dist.init_process_group]: the case where the rendezvous at
    [MASTER_ADDR:MASTER_PORT] succeeds. A failed or timed-out rendezvous is
    not modelled; what is stated about later lines is about the runs that
    get past this call. *)
Definition init_process_group (backend : string) (rank world_size : nat) : M unit :=
  λ w, (World (environ w) (Some (backend, rank, world_size)) (grad_enabled w)
          (fs w) (opened w) (trace w) (log w), Return tt).

Definition destroy_process_group : M unit :=
  λ w, (World (environ w) None (grad_enabled w)
          (fs w) (opened w) (trace w) (log w), Return tt).

Definition set_grad_enabled (b : bool) : M unit :=
  λ w, (World (environ w) (process_group w) b
          (fs w) (opened w) (trace w) (log w), Return tt).

Definition logging_info (msg : string) : M unit :=
  λ w, (World (environ w) (process_group w) (grad_enabled w)
          (fs w) (opened w) (trace w) (log w ++ [msg]), Return tt).

Definition set_fs (w : world) (f : gmap string node) (o : list string)
    (t : list fs_event) : world :=
  World (environ w) (process_group w) (grad_enabled w) f o t (log w).

(** **** Directories

    The file system is keyed by the path as it is spelled; two spellings of
    one file (through [.], [..], doubled slashes or links) are two keys. The
    current directory is the empty head, the root is any run of slashes. *)

(** A directory in which a name can be looked up: the current directory,
    the root, or a directory node. *)
Definition searchable (f : gmap string node) (d : string) : bool :=
  String.eqb d "" || all_slashes d || bool_decide (f !! d = Some Dir).

(** What [os.stat(p)] finds: a node is reached through its parent. *)
Definition stat (f : gmap string node) (p : string) : option node :=
  if String.eqb p "" then None
  else if all_slashes p then Some Dir
  else if searchable f (os_path_split p).1 then f !! p
  else None.

Definition os_path_exists (f : gmap string node) (p : string) : bool :=
  bool_decide (is_Some (stat f p)).
Definition os_path_isdir (f : gmap string node) (p : string) : bool :=
  bool_decide (stat f p = Some Dir).

(** [os.mkdir(p)]. *)
Definition mkdir (p : string) (f : gmap string node)
    : gmap string node * outcome unit :=
  if String.eqb p "" then (f, Raise (FileNotFoundError p))
  else if negb (searchable f (os_path_split p).1) then
    (f, Raise (match f !! (os_path_split p).1 with
               | Some (File _) => NotADirectoryError p
               | _ => FileNotFoundError p
               end))
  else if os_path_exists f p then (f, Raise (FileExistsError p))
  else (<[p := Dir]> f, Return tt).

(** The last statement of [os.makedirs], with [exist_ok=True]:
    [try: mkdir(name)] / [except OSError: if not isdir(name): raise]. *)
Definition mkdir_exist_ok (name : string) (f : gmap string node)
    : gmap string node * outcome unit :=
  match mkdir name f with
  | (f', Raise e) =>
      if os_path_isdir f' name then (f', Return tt) else (f', Raise e)
  | r => r
  end.

(** [os.makedirs(name, exist_ok=True)]: the missing ancestors are made
    first, by a recursive call on the head of [name], in which a
    [FileExistsError] is passed over; [xxx/newdir/.] is there once
    [xxx/newdir] is. The head is shorter than [name], so the length of
    [name] is fuel enough ([makedirs_go_fuel]). *)
Fixpoint makedirs_go (fuel : nat) (name : string) (f : gmap string node)
    : gmap string node * outcome unit :=
  let '(head, tail) := os_path_split name in
  let '(head, tail) :=
    if truthy tail then (head, tail) else os_path_split head in
  if truthy head && truthy tail && negb (os_path_exists f head) then
    match fuel with
    | 0 => mkdir_exist_ok name f
    | S fuel' =>
        match makedirs_go fuel' head f with
        | (f1, Raise (FileExistsError _)) | (f1, Return _) =>
            if String.eqb tail "." then (f1, Return tt)
            else mkdir_exist_ok name f1
        | (f1, Raise e) => (f1, Raise e)
        end
    end
  else mkdir_exist_ok name f.

Definition makedirs_exist_ok (p : string) : M unit :=
  λ w, let '(f, r) := makedirs_go (String.length p) p (fs w) in
       (set_fs w f (opened w) (trace w), r).

(** [open(p, 'w')]: the file is created, or truncated when it exists. The
    parent directory is not looked at: the script opens files only inside the
    directory it has just made. *)
Definition open_w (p : string) : M unit :=
  λ w, match fs w !! p with
       | Some Dir => (w, Raise (IsADirectoryError p))
       | _ => (set_fs w (<[p := File []]> (fs w)) (p :: opened w)
                 (trace w ++ [EvOpen p]), Return tt)
       end.

Definition content (w : world) (p : string) : list string :=
  match fs w !! p with
  | Some (File chunks) => chunks
  | _ => []
  end.

(** [f.write(s)] on the file object opened at [p]. *)
Definition write (p s : string) : M unit :=
  λ w, if bool_decide (p ∈ opened w)
       then (set_fs w (<[p := File (content w p ++ [s])]> (fs w)) (opened w)
               (trace w ++ [EvWrite p s]), Return tt)
       else (w, Raise (ValueError "I/O operation on closed file.")).

Definition close (p : string) : world → world :=
  λ w, set_fs w (fs w) (filter (λ q, q ≠ p) (opened w)) (trace w ++ [EvClose p]).

(** [with open(p, 'w') as f: body]: the file is closed however [body] ends. *)
Definition with_open_w {A} (p : string) (body : M A) : M A :=
  λ w, match open_w p w with
       | (w1, Raise e) => (w1, Raise e)
       | (w1, Return _) => let '(w2, r) := body w1 in (close p w2, r)
       end.

(** ** Tensors, as far as the script looks at them *)

Inductive device :=
| Cpu
| Cuda (index : nat).

Record tensor := Tensor {
  shape : list nat;
  data : list Z;
  dev : device
}.

Definition ndim (t : tensor) : nat := length (shape t).

(** [t.squeeze(dim=0)]: the leading dimension goes when its size is one. *)
Definition squeeze0 (t : tensor) : tensor :=
  match shape t with
  | 1 :: s => Tensor s (data t) (dev t)
  | _ => t
  end.

(** [t.to(rank)] and [t.cpu()]. *)
Definition to (d : device) (t : tensor) : tensor := Tensor (shape t) (data t) d.

(** [len(t)]. *)
Definition tensor_len (t : tensor) : outcome nat :=
  match shape t with
  | [] => Raise (TypeError "len() of a 0-d tensor")
  | n :: _ => Return n
  end.

Definition row_size (t : tensor) : nat := foldr Nat.mul 1 (tail (shape t)).

Definition row (t : tensor) (i : nat) : tensor :=
  Tensor (tail (shape t)) (take (row_size t) (drop (i * row_size t) (data t))) (dev t).

(** [for r in t]: the sub-tensors along the leading dimension. *)
Definition rows (t : tensor) : outcome (list tensor) :=
  match shape t with
  | [] => Raise (TypeError "iteration over a 0-d tensor")
  | n :: _ => Return (map (row t) (seq 0 n))
  end.

(** ** The framework objects *)

Inductive checkpoint :=
| NemoFile (restore_path : string)
| CkptFile (checkpoint_path : string).

Inductive search :=
| BeamSearch
| TopKSampling (topk : Z).

Record MTEncDecModel := Model {
  origin : checkpoint;
  decoding : search;
  model_dev : device;
  training : bool
}.

(** The two loaders, in the case where the file is there and can be read: the
    model remembers the path it came from. A missing or unreadable checkpoint
    raises inside the framework and is not modelled. *)
Definition restore_from (restore_path : string) : MTEncDecModel :=
  Model (NemoFile restore_path) BeamSearch Cpu true.
Definition load_from_checkpoint (checkpoint_path : string) : MTEncDecModel :=
  Model (CkptFile checkpoint_path) BeamSearch Cpu true.
Definition replace_beam_with_sampling (m : MTEncDecModel) (k : Z) : MTEncDecModel :=
  Model (origin m) (TopKSampling k) (model_dev m) (training m).
Definition model_to (rank : nat) (m : MTEncDecModel) : MTEncDecModel :=
  Model (origin m) (decoding m) (Cuda rank) (training m).
Definition eval (m : MTEncDecModel) : MTEncDecModel :=
  Model (origin m) (decoding m) (model_dev m) false.

Inductive tokenizer :=
| encoder_tokenizer (m : checkpoint)
| decoder_tokenizer (m : checkpoint).

Inductive detokenizer :=
| MosesDetokenizer (lang : string)
| PanguJiebaDetokenizer
| SentencePieceDetokenizer.

Inductive dataset :=
| TarredTranslationDataset
    (text_tar_filepaths metadata_path : string)
    (encoder_tok decoder_tok : tokenizer)
    (shuffle_n : nat) (shard_strategy : string)
    (world_size global_rank : nat) (reverse_lang_direction : bool)
| TarredOneSideTranslationDataset
    (text_tar_filepaths metadata_path : string)
    (tok : tokenizer)
    (shuffle_n : nat) (shard_strategy : string)
    (world_size global_rank : nat).

(** What the framework computes; none of it is authored by the script.
    [samples] is what iterating a dataset yields, [forward] the replicated
    model called with no target (its second argument numbers the call, since
    sampling need not repeat itself), [ids_to_text] a tokenizer's decoding and
    [detokenize] a detokenizer's [detokenize] method. They are functions:
    the case where these calls return. An exception raised inside one of
    them is not modelled, so the ways a run can fail that are stated below are
    those of the script's own lines and of its calls into [os]. *)
Class NeMo := {
  samples : dataset → list (list tensor);
  forward : MTEncDecModel → nat → tensor → tensor → tensor;
  ids_to_text : tokenizer → tensor → string;
  detokenize : detokenizer → list string → string
}.

(** [DataLoader(dataset, batch_size=1)]: every sample becomes a batch whose
    tensors carry a new leading dimension of size one. *)
Definition collate1 (t : tensor) : tensor := Tensor (1 :: shape t) (data t) Cpu.
Definition DataLoader1 `{NeMo} (d : dataset) : list (list tensor) :=
  map (map collate1) (samples d).

(** ** The script *)

Record Namespace := {
  model : string;
  text2translate : string;
  result_dir : string;
  twoside : bool;
  metadata_path : string;
  topk : Z;
  source_lang : string;
  target_lang : string;
  reverse_lang_direction : bool
}.

Definition setup (rank world_size : nat) (args : Namespace) : M unit :=
  set_w_environ "MASTER_ADDR" "localhost";;
  set_w_environ "MASTER_PORT" "12355";;
  init_process_group "gloo" rank world_size.

Definition cleanup : M unit := destroy_process_group.

(** Lines 73-78: [model] is assigned in two of the three cases. *)
Definition load_model (args : Namespace) : M (option MTEncDecModel) :=
  if endswith (model args) ".nemo" then
    logging_info "Attempting to initialize from .nemo file";;
    mret (Some (restore_from (model args)))
  else if endswith (model args) ".ckpt" then
    logging_info "Attempting to initialize from .ckpt file";;
    mret (Some (load_from_checkpoint (model args)))
  else mret None.

(** Lines 82-103. *)
Definition make_dataset (rank world_size : nat) (args : Namespace)
    (m : MTEncDecModel) : dataset :=
  if twoside args then
    TarredTranslationDataset (text2translate args) (metadata_path args)
      (encoder_tokenizer (origin m)) (decoder_tokenizer (origin m))
      100 "scatter" world_size rank (reverse_lang_direction args)
  else
    TarredOneSideTranslationDataset (text2translate args) (metadata_path args)
      (encoder_tokenizer (origin m))
      100 "scatter" world_size rank.

(** Line 105, and lines 107-108. *)
Definition rank_dir (args : Namespace) (rank : nat) : string :=
  os_path_join (result_dir args) ("rank" +:+ pretty rank).
Definition originals_file_name (args : Namespace) (rank : nat) : string :=
  os_path_join (rank_dir args rank) "originals.txt".
Definition translations_file_name (args : Namespace) (rank : nat) : string :=
  os_path_join (rank_dir args rank) "translations.txt".

(** Lines 111-114 and 119-122: [if lang != 'zh': ... elif lang == 'zh': ...]. *)
Definition select_detokenizer (lang : string) : option detokenizer :=
  if negb (String.eqb lang "zh") then Some (MosesDetokenizer lang)
  else if String.eqb lang "zh" then Some PanguJiebaDetokenizer
  else None.

(** Lines 116-117: [if args.target_lang or args.source_lang == 'ja']. *)
Definition sp_guard (args : Namespace) : bool :=
  truthy (target_lang args) || String.eqb (source_lang args) "ja".
Definition select_sp_detokenizer (args : Namespace) : option detokenizer :=
  if sp_guard args then Some SentencePieceDetokenizer else None.

(** Lines 126-129: [for i in range(len(batch))], updating [batch] in place. *)
Definition prepare_at (rank : nat) (batch : list tensor) (i : nat)
    : outcome (list tensor) :=
  match batch !! i with
  | None => Raise (IndexError "list index out of range")
  | Some t =>
      let batch := if (ndim t =? 3)%nat then <[i := squeeze0 t]> batch else batch in
      match batch !! i with
      | None => Raise (IndexError "list index out of range")
      | Some t => Return (<[i := to (Cuda rank) t]> batch)
      end
  end.

Fixpoint prepare_from (rank : nat) (idxs : list nat) (batch : list tensor)
    : outcome (list tensor) :=
  match idxs with
  | [] => Return batch
  | i :: idxs' =>
      match prepare_at rank batch i with
      | Return batch' => prepare_from rank idxs' batch'
      | Raise e => Raise e
      end
  end.

Definition prepare (rank : nat) (batch : list tensor) : outcome (list tensor) :=
  prepare_from rank (seq 0 (length batch)) batch.

(** The [ValueError] of a tuple assignment with [expected] targets from a list
    of [got] values. *)
Definition unpack_error (expected got : nat) : exn :=
  ValueError
    (if (got <? expected)%nat
     then "not enough values to unpack (expected " +:+ pretty expected +:+
          ", got " +:+ pretty got +:+ ")"
     else "too many values to unpack (expected " +:+ pretty expected +:+ ")").

(** Lines 130-133: tuple unpacking fails unless the length is the expected one. *)
Definition unpack (two : bool) (batch : list tensor) : outcome (tensor * tensor) :=
  if two then
    match batch with
    | [src_ids; src_mask; _; _; _] => Return (src_ids, src_mask)
    | _ => Raise (unpack_error 5 (length batch))
    end
  else
    match batch with
    | [src_ids; src_mask] => Return (src_ids, src_mask)
    | _ => Raise (unpack_error 2 (length batch))
    end.

(** Lines 135-138. *)
Definition progress_msg (batch_idx num_translated_sentences rank : nat) : string :=
  pretty batch_idx +:+ " batches (" +:+ pretty num_translated_sentences +:+
  " sentences) were translated by process with rank " +:+ pretty rank.

Section script.
Context `{NeMo}.

(** The locals the loop reads, each possibly unassigned. *)
Record locals := Locals {
  target_detokenizer : option detokenizer;
  sp_detokenizer : option detokenizer;
  source_detokenizer : option detokenizer
}.

(** Lines 111-122: the three assignments, in the order target, sub-word,
    source. *)
Definition assign_detokenizers (args : Namespace) : locals :=
  Locals (select_detokenizer (target_lang args))
         (select_sp_detokenizer args)
         (select_detokenizer (source_lang args)).

(** Lines 143-146. *)
Definition translation_line (args : Namespace) (m : MTEncDecModel)
    (l : locals) (t : tensor) : M string :=
  let t := ids_to_text (decoder_tokenizer (origin m)) t in
  t ← (if String.eqb (target_lang args) "ja"
       then sp ← use "sp_detokenizer" (sp_detokenizer l);
            mret (detokenize sp (split t))
       else mret t);
  d ← use "target_detokenizer" (target_detokenizer l);
  mret (detokenize d (split t)).

(** Lines 149-152. *)
Definition original_line (args : Namespace) (m : MTEncDecModel)
    (l : locals) (o : tensor) : M string :=
  let o := ids_to_text (encoder_tokenizer (origin m)) o in
  o ← (if String.eqb (target_lang args) "ja"
       then sp ← use "sp_detokenizer" (sp_detokenizer l);
            mret (detokenize sp (split o))
       else mret o);
  d ← use "source_detokenizer" (source_detokenizer l);
  mret (detokenize d (split o)).

(** Lines 134-153: the turn once the batch is unpacked. [of_] and [tf] are
    the two open files ([of] is a reserved word, hence [of_]); the result is
    the new value of [num_translated_sentences]. *)
Definition loop_body_unpacked (rank : nat) (args : Namespace)
    (m : MTEncDecModel) (l : locals) (of_ tf : string)
    (batch_idx : nat) (src_ids src_mask : tensor)
    (num_translated_sentences : nat) : M nat :=
  (if (batch_idx mod 100 =? 0)%nat
   then logging_info (progress_msg batch_idx num_translated_sentences rank)
   else mret tt);;
  n ← lift (tensor_len src_ids);
  let num_translated_sentences := num_translated_sentences + n in
  let translations := forward m batch_idx src_ids src_mask in
  let translations := to Cpu translations in
  ts ← lift (rows translations);
  for_each ts (λ t,
    translation ← translation_line args m l t;
    write tf (translation +:+ nl));;
  os ← lift (rows src_ids);
  for_each os (λ o,
    translation ← original_line args m l o;
    write of_ (translation +:+ nl));;
  mret num_translated_sentences.

(** Lines 126-153: one turn of the loop. *)
Definition loop_body (rank : nat) (args : Namespace) (m : MTEncDecModel)
    (l : locals) (of_ tf : string)
    (batch_idx : nat) (batch : list tensor) (num_translated_sentences : nat)
    : M nat :=
  batch ← lift (prepare rank batch);
  '(src_ids, src_mask) ← lift (unpack (twoside args) batch);
  loop_body_unpacked rank args m l of_ tf batch_idx src_ids src_mask
    num_translated_sentences.

(** Lines 70-154. [model.to(rank)] and [ddp_model.eval()] act on the one model
    object, so [ddp_model] below is that object after both, and the dataset
    and the loop read its tokenizers. The value returned is the final
    [num_translated_sentences] (the Python procedure returns nothing; the
    counter is handed back so that statements about it can be written). *)
Definition translate (rank world_size : nat) (args : Namespace) : M nat :=
  setup rank world_size args;;
  set_grad_enabled false;;
  model ← load_model args;
  model ← use "model" model;
  let model := replace_beam_with_sampling model (topk args) in
  let model := model_to rank model in
  let ddp_model := eval model in
  let dataset := make_dataset rank world_size args ddp_model in
  let loader := DataLoader1 dataset in
  makedirs_exist_ok (rank_dir args rank);;
  let num_translated_sentences := 0 in
  let l := assign_detokenizers args in
  n ← with_open_w (originals_file_name args rank)
        (with_open_w (translations_file_name args rank)
           (for_enumerate 0 loader num_translated_sentences
              (loop_body rank args ddp_model l
                 (originals_file_name args rank)
                 (translations_file_name args rank))));
  cleanup;;
  mret n.

End script.

(** ** What a run computes, in closed form

    The definitions below restate pieces of the script as pure functions; the
    lemmas further down show that the script computes exactly these. *)

Definition exec {A} (m : M A) (w : world) : world := (m w).1.

(** [never e m]: running [m] does not end in the exception [e]. *)
Definition never {A} (e : exn) (m : M A) : Prop := ∀ w, (m w).2 ≠ Raise e.

(** Writing a sequence of strings to the open file [p]. *)
Definition write_lines (p : string) (lines : list string) (w : world) : world :=
  foldl (λ w s, exec (write p s) w) w lines.

(** The per-tensor effect of lines 127-129. *)
Definition prepared (rank : nat) (t : tensor) : tensor :=
  to (Cuda rank) (if (ndim t =? 3)%nat then squeeze0 t else t).

Definition final_detokenizer (lang : string) : detokenizer :=
  if String.eqb lang "zh" then PanguJiebaDetokenizer else MosesDetokenizer lang.

(** What one batch contributes: the number of sentences, the lines for
    [translations.txt] and the lines for [originals.txt]. *)
Record batch_result := BatchResult {
  sentences : nat;
  translation_lines : list string;
  original_lines : list string
}.

Section closed_form.
Context `{NeMo}.

(** The sub-word pass of lines 144-145 and 150-151: both are guarded by the
    target language. *)
Definition sp_pass (args : Namespace) (s : string) : string :=
  if String.eqb (target_lang args) "ja"
  then detokenize SentencePieceDetokenizer (split s)
  else s.

Definition translation_text (args : Namespace) (m : MTEncDecModel)
    (t : tensor) : string :=
  detokenize (final_detokenizer (target_lang args))
    (split (sp_pass args (ids_to_text (decoder_tokenizer (origin m)) t))).

Definition original_text (args : Namespace) (m : MTEncDecModel)
    (o : tensor) : string :=
  detokenize (final_detokenizer (source_lang args))
    (split (sp_pass args (ids_to_text (encoder_tokenizer (origin m)) o))).

Definition batch_out (rank : nat) (args : Namespace) (m : MTEncDecModel)
    (batch_idx : nat) (batch : list tensor) : outcome batch_result :=
  match unpack (twoside args) (map (prepared rank) batch) with
  | Raise e => Raise e
  | Return (src_ids, src_mask) =>
      match tensor_len src_ids with
      | Raise e => Raise e
      | Return n =>
          match rows (to Cpu (forward m batch_idx src_ids src_mask)) with
          | Raise e => Raise e
          | Return ts =>
              match rows src_ids with
              | Raise e => Raise e
              | Return os =>
                  Return (BatchResult n
                    (map (λ t, translation_text args m t +:+ nl) ts)
                    (map (λ o, original_text args m o +:+ nl) os))
              end
          end
      end
  end.

Fixpoint loop_outs (rank : nat) (args : Namespace) (m : MTEncDecModel)
    (i : nat) (batches : list (list tensor)) : outcome (list batch_result) :=
  match batches with
  | [] => Return []
  | b :: bs =>
      match batch_out rank args m i b with
      | Raise e => Raise e
      | Return r =>
          match loop_outs rank args m (S i) bs with
          | Raise e => Raise e
          | Return rs => Return (r :: rs)
          end
      end
  end.

End closed_form.

(** The progress line of batch [i], if there is one. *)
Definition progress (rank i num : nat) : list string :=
  if (i mod 100 =? 0)%nat then [progress_msg i num rank] else [].

Definition log_all (msgs : list string) (w : world) : world :=
  World (environ w) (process_group w) (grad_enabled w)
        (fs w) (opened w) (trace w) (log w ++ msgs).

Definition body_world (rank : nat) (of_ tf : string) (i num : nat)
    (r : batch_result) (w : world) : world :=
  write_lines of_ (original_lines r)
    (write_lines tf (translation_lines r)
       (log_all (progress rank i num) w)).

Fixpoint loop_world (rank : nat) (of_ tf : string) (i num : nat)
    (rs : list batch_result) (w : world) : world :=
  match rs with
  | [] => w
  | r :: rs' =>
      loop_world rank of_ tf (S i) (num + sentences r) rs'
        (body_world rank of_ tf i num r w)
  end.

Definition total_sentences (rs : list batch_result) : nat :=
  foldr (λ r acc, sentences r + acc) 0 rs.

(** The progress lines of a run of batches starting at index [i] with [num]
    sentences already counted. *)
Fixpoint progress_log (rank i num : nat) (rs : list batch_result)
    : list string :=
  match rs with
  | [] => []
  | r :: rs' => progress rank i num ++ progress_log rank (S i) (num + sentences r) rs'
  end.

(** The file events of a run of batches: per batch, the translations and then
    the originals. *)
Definition loop_trace (of_ tf : string) (rs : list batch_result) : list fs_event :=
  concat (map (λ r, map (EvWrite tf) (translation_lines r) ++
                    map (EvWrite of_) (original_lines r)) rs).

(** The strings a sequence of file events writes to the path [p], in order. *)
Definition written (p : string) (evs : list fs_event) : list string :=
  omap (λ ev, match ev with
              | EvWrite q s => if decide (q = p) then Some s else None
              | _ => None
              end) evs.

Definition is_write (ev : fs_event) : Prop :=
  match ev with
  | EvWrite _ _ => True
  | _ => False
  end.

(** [keeps_log m]: running [m] logs nothing. *)
Definition keeps_log {A} (m : M A) : Prop := ∀ w, log (m w).1 = log w.

(** The model gives one output sequence per input sequence: the result of
    the forward call is as long as [src_ids]. *)
Definition one_output_per_input `{NeMo} : Prop :=
  ∀ m i src_ids src_mask k,
    tensor_len src_ids = Return k →
    tensor_len (forward m i src_ids src_mask) = Return k.

(** The text of a file, and the number of newline characters in a text. *)
Definition text_of (chunks : list string) : string :=
  foldr String.append "" chunks.
Fixpoint count_nl (s : string) : nat :=
  match s with
  | EmptyString => 0
  | String c s' => (if Ascii.eqb c "010" then 1 else 0) + count_nl s'
  end.

(** The detokenizers return text without a newline in it. *)
Definition single_line_detokenizers `{NeMo} : Prop :=
  ∀ d tokens, count_nl (detokenize d tokens) = 0.

(** The state on entry to the [with] block and after leaving it. *)
Definition opened_world (of_ tf : string) (w : world) : world :=
  exec (open_w tf) (exec (open_w of_) w).
Definition closed_world (of_ tf : string) (w : world) : world :=
  close of_ (close tf w).

(** Lines 73-78 in closed form: the model assigned, if any, and what is
    logged. *)
Definition loaded (args : Namespace) : option MTEncDecModel :=
  if endswith (model args) ".nemo" then Some (restore_from (model args))
  else if endswith (model args) ".ckpt" then Some (load_from_checkpoint (model args))
  else None.
Definition load_log (args : Namespace) : list string :=
  if endswith (model args) ".nemo" then ["Attempting to initialize from .nemo file"]
  else if endswith (model args) ".ckpt" then ["Attempting to initialize from .ckpt file"]
  else [].

(** Lines 79-81: the model the loop runs, from the one that was loaded. *)
Definition ready_model (rank : nat) (args : Namespace) (m0 : MTEncDecModel)
    : MTEncDecModel :=
  eval (model_to rank (replace_beam_with_sampling m0 (topk args))).

(** The state after lines 71-72. *)
Definition setup_world (rank world_size : nat) (args : Namespace) (w : world)
    : world :=
  exec (set_grad_enabled false) (exec (setup rank world_size args) w).

(** The batches a rank iterates over and the [with] block of lines 124-153,
    for the model [m]. *)
Definition loader `{NeMo} (rank world_size : nat) (args : Namespace)
    (m : MTEncDecModel) : list (list tensor) :=
  DataLoader1 (make_dataset rank world_size args m).
Definition with_block `{NeMo} (rank world_size : nat) (args : Namespace)
    (m : MTEncDecModel) : M nat :=
  with_open_w (originals_file_name args rank)
    (with_open_w (translations_file_name args rank)
       (for_enumerate 0 (loader rank world_size args m) 0
          (loop_body rank args m (assign_detokenizers args)
             (originals_file_name args rank)
             (translations_file_name args rank)))).

(** ** A small framework instance, to run the script on concrete inputs *)

Module Toy.

Definition ids : tensor := Tensor [2; 2] [1; 2; 3; 4]%Z Cpu.
Definition mask : tensor := Tensor [2; 2] [1; 1; 1; 1]%Z Cpu.

Definition words (t : tensor) : string :=
  String.concat " " (map pretty (data t)).

Global Instance toy : NeMo := {|
  samples d :=
    match d with
    | TarredTranslationDataset _ _ _ _ _ _ _ _ _ => [[ids; mask; ids; mask; ids]]
    | TarredOneSideTranslationDataset corpus _ _ _ _ _ _ =>
        replicate (if String.eqb corpus "big.tar" then 101 else 2) [ids; mask]
    end;
  forward _ _ src_ids _ := src_ids;
  ids_to_text _ t := words t;
  detokenize d toks :=
    match d with
    | SentencePieceDetokenizer => String.concat "" toks
    | _ => String.concat " " toks
    end
|}.

Definition args (model_path src tgt : string) (two : bool) : Namespace := {|
  model := model_path;
  text2translate := "corpus.tar";
  result_dir := "out";
  twoside := two;
  metadata_path := "metadata.json";
  topk := 500;
  source_lang := src;
  target_lang := tgt;
  reverse_lang_direction := false
|}.

(** One-sided arguments over a corpus of 101 batches. *)
Definition big_args : Namespace := {|
  model := "m.nemo";
  text2translate := "big.tar";
  result_dir := "out";
  twoside := false;
  metadata_path := "metadata.json";
  topk := 500;
  source_lang := "en";
  target_lang := "de";
  reverse_lang_direction := false
|}.

Definition empty_world : world := World ∅ None true ∅ [] [] [].

(** A world where [out/rank0/originals.txt] already holds a line. *)
Definition used_world : world :=
  World ∅ None true
    (<["out/rank0/originals.txt" := File ["old" +:+ nl]]>
       (<["out/rank0" := Dir]> (<["out" := Dir]> ∅)))
    [] [] [].

End Toy.

(** ** Views of the state, for statements about what a run leaves alone *)

(** [preserves f m]: running [m] does not change what [f] reads of the state,
    however [m] ends. *)
Definition preserves {A T} (f : world → T) (m : M A) : Prop :=
  ∀ w, f (m w).1 = f w.


(** [no_leak m]: every file open after [m] was open before it. *)
Definition no_leak {A} (m : M A) : Prop :=
  ∀ w p, p ∈ opened (m w).1 → p ∈ opened w.

(** The three paths a rank works on. *)
Definition rank_paths (args : Namespace) (rank : nat) : list string :=
  [rank_dir args rank; originals_file_name args rank;
   translations_file_name args rank].

(** A batch a turn of the loop gets through: it unpacks, and neither
    [src_ids] nor what the model returns for it is 0-dimensional. *)
Definition batch_ok `{NeMo} (rank : nat) (args : Namespace) (m : MTEncDecModel)
    (batch_idx : nat) (batch : list tensor) : Prop :=
  ∃ src_ids src_mask,
    unpack (twoside args) (map (prepared rank) batch) = Return (src_ids, src_mask) ∧
    shape src_ids ≠ [] ∧
    shape (forward m batch_idx src_ids src_mask) ≠ [].

(** ** A framework instance that misbehaves

    Its one-sided corpus [bad.tar] has a batch of one tensor between two good
    ones, and its model returns a single row whatever it is given. *)

Module Faulty.

Definition nemo : NeMo := {|
  samples d :=
    match d with
    | TarredTranslationDataset _ _ _ _ _ _ _ _ _ =>
        [[Toy.ids; Toy.mask; Toy.ids; Toy.mask; Toy.ids]]
    | TarredOneSideTranslationDataset corpus _ _ _ _ _ _ =>
        if String.eqb corpus "bad.tar"
        then [[Toy.ids; Toy.mask]; [Toy.ids]; [Toy.ids; Toy.mask]]
        else [[Toy.ids; Toy.mask]]
    end;
  forward _ _ src_ids _ := Tensor [1; 2] (take 2 (data src_ids)) (dev src_ids);
  ids_to_text _ t := Toy.words t;
  detokenize d toks := String.concat " " toks
|}.

Definition args (corpus : string) : Namespace := {|
  model := "m.ckpt";
  text2translate := corpus;
  result_dir := "out";
  twoside := false;
  metadata_path := "metadata.json";
  topk := 500;
  source_lang := "en";
  target_lang := "de";
  reverse_lang_direction := false
|}.

End Faulty.

(** * Properties *)

(** ** Strings and paths *)

Section strings.
Implicit Types s t pre suf : string.

Lemma str_app_cons c s t : String c s +:+ t = String c (s +:+ t).
Proof. reflexivity. Qed.

Lemma str_app_empty_r s : s +:+ "" = s.
Proof. induction s as [|c s IH]; [done | by rewrite str_app_cons, IH]. Qed.

Lemma str_app_assoc s t u : (s +:+ t) +:+ u = s +:+ t +:+ u.
Proof. induction s as [|c s IH]; [done | by rewrite !str_app_cons, IH]. Qed.

Lemma str_length_app s t :
  String.length (s +:+ t) = String.length s + String.length t.
Proof. induction s as [|c s IH]; [done | rewrite str_app_cons; simpl; by rewrite IH]. Qed.

Lemma endswith_refl s : endswith s s = true.
Proof. destruct s; cbn [endswith]; by rewrite String.eqb_refl. Qed.

Lemma endswith_app pre suf : endswith (pre +:+ suf) suf = true.
Proof.
  induction pre as [|c pre IH]; [apply endswith_refl |].
  rewrite str_app_cons. cbn [endswith]. rewrite IH. apply orb_true_r.
Qed.

(** [endswith] is the suffix relation. *)
Lemma endswith_spec s suf : endswith s suf = true ↔ ∃ pre, s = pre +:+ suf.
Proof.
  split.
  - induction s as [|c s IH]; cbn [endswith].
    + rewrite orb_false_r. intros ->%String.eqb_eq. by exists "".
    + intros [->%String.eqb_eq | Hs]%orb_true_iff; [by exists "" |].
      destruct (IH Hs) as [pre ->]. by exists (String c pre).
  - intros [pre ->]. apply endswith_app.
Qed.

(** Two suffixes of one string that have the same length are equal. *)
Lemma same_length_suffix pre1 pre2 suf1 suf2 :
  pre1 +:+ suf1 = pre2 +:+ suf2 →
  String.length suf1 = String.length suf2 →
  suf1 = suf2.
Proof.
  revert pre2. induction pre1 as [|c pre1 IH]; intros [|d pre2];
    rewrite ?str_app_cons; change ("" +:+ ?x) with x.
  - done.
  - intros -> Hlen. simpl in Hlen. rewrite str_length_app in Hlen. lia.
  - intros <- Hlen. simpl in Hlen. rewrite str_length_app in Hlen. lia.
  - intros [= _ Heq]. by apply (IH pre2).
Qed.

Lemma endswith_exclusive s suf1 suf2 :
  String.length suf1 = String.length suf2 → suf1 ≠ suf2 →
  endswith s suf1 = true → endswith s suf2 = false.
Proof.
  intros Hlen Hne [pre1 ->]%endswith_spec.
  apply not_true_is_false. intros [pre2 Heq]%endswith_spec.
  by apply Hne, (same_length_suffix pre1 pre2).
Qed.

Lemma app_ne_self s t : t ≠ "" → s +:+ t ≠ s.
Proof.
  intros Ht Heq. apply (f_equal String.length) in Heq.
  rewrite str_length_app in Heq. destruct t; [done | simpl in Heq; lia].
Qed.

(** A component that does not start with a slash is appended, after a slash
    unless the directory is empty or already ends with one. *)
Lemma os_path_join_relative a b :
  startswith b "/" = false →
  os_path_join a b =
    a +:+ (if String.eqb a "" || endswith a "/" then "" else "/") +:+ b.
Proof.
  intros Hb. unfold os_path_join. rewrite Hb.
  by destruct (String.eqb a "" || endswith a "/").
Qed.

Lemma os_path_join_inj a b1 b2 :
  startswith b1 "/" = false → startswith b2 "/" = false →
  os_path_join a b1 = os_path_join a b2 → b1 = b2.
Proof.
  intros H1 H2. rewrite !os_path_join_relative by done.
  intros Heq%(inj (String.app a)). by apply (inj (String.app _)) in Heq.
Qed.

Lemma os_path_join_ne_dir a b :
  startswith b "/" = false → b ≠ "" → os_path_join a b ≠ a.
Proof.
  intros Hb Hne. rewrite os_path_join_relative by done.
  apply app_ne_self. destruct (String.eqb a "" || endswith a "/"); [done|].
  simpl. discriminate.
Qed.
End strings.

(** ** The decimal rendering of a rank *)

Lemma pretty_N_go_app (x : N) (s : string) :
  pretty_N_go x s = pretty_N_go x "" +:+ s.
Proof.
  revert s. induction (N.lt_wf_0 x) as [x _ IH]; intros s.
  destruct (decide (x = 0)%N) as [->|Hx].
  - by rewrite !pretty_N_go_0.
  - rewrite (pretty_N_go_step x s), (pretty_N_go_step x "") by lia.
    assert (x `div` 10 < x)%N as Hlt by (apply N.div_lt; lia).
    rewrite (IH _ Hlt (String _ s)), (IH _ Hlt (String _ "")).
    by rewrite str_app_assoc.
Qed.

Lemma pretty_N_char_not_slash (x : N) : pretty_N_char x ≠ "/"%char.
Proof. unfold pretty_N_char. by repeat case_match. Qed.

(** The rendering of a natural number ends with a digit, not with a slash. *)
Lemma pretty_nat_last (n : nat) :
  ∃ pre d, pretty n = pre +:+ String d "" ∧ d ≠ "/"%char.
Proof.
  unfold pretty, pretty_nat, pretty, pretty_N.
  destruct (decide (N.of_nat n = 0)%N) as [_|Hn].
  - by exists "", "0"%char.
  - rewrite pretty_N_go_step by lia. rewrite pretty_N_go_app.
    eexists _, _. split; [done | apply pretty_N_char_not_slash].
Qed.

Lemma endswith_last pre d suf :
  String.length suf = 1 → suf ≠ String d "" →
  endswith (pre +:+ String d "") suf = false.
Proof.
  intros Hlen Hne. apply (endswith_exclusive _ (String d "")); [done | done |].
  apply endswith_app.
Qed.

Lemma rank_component_relative (rank : nat) :
  startswith ("rank" +:+ pretty rank) "/" = false.
Proof. reflexivity. Qed.

(** The directory of a rank: [result_dir], a slash unless [result_dir] is
    empty or ends with one, then [rank<N>]. *)
Lemma rank_dir_explicit (args : Namespace) (rank : nat) :
  rank_dir args rank =
    result_dir args +:+
    (if String.eqb (result_dir args) "" || endswith (result_dir args) "/"
     then "" else "/") +:+
    "rank" +:+ pretty rank.
Proof. unfold rank_dir. by rewrite os_path_join_relative. Qed.

Lemma rank_dir_last (args : Namespace) (rank : nat) :
  ∃ pre d, rank_dir args rank = pre +:+ String d "" ∧ d ≠ "/"%char.
Proof.
  destruct (pretty_nat_last rank) as (pre & d & Hp & Hd).
  exists (result_dir args +:+
          (if String.eqb (result_dir args) "" || endswith (result_dir args) "/"
           then "" else "/") +:+ "rank" +:+ pre), d.
  split; [|done]. rewrite rank_dir_explicit, Hp. by rewrite !str_app_assoc.
Qed.

(** A file of the rank's directory is the directory, a slash, the name. *)
Lemma file_in_rank_dir (args : Namespace) (rank : nat) (name : string) :
  startswith name "/" = false →
  os_path_join (rank_dir args rank) name = rank_dir args rank +:+ "/" +:+ name.
Proof.
  intros Hname. rewrite os_path_join_relative by done.
  destruct (rank_dir_last args rank) as (pre & d & -> & Hd).
  rewrite endswith_last by (try done; congruence).
  replace (String.eqb (pre +:+ String d "") "") with false; [done|].
  symmetry. apply String.eqb_neq. by destruct pre.
Qed.

Lemma originals_ne_translations (args : Namespace) (rank : nat) :
  originals_file_name args rank ≠ translations_file_name args rank.
Proof.
  unfold originals_file_name, translations_file_name.
  by intros ?%os_path_join_inj.
Qed.

Lemma originals_ne_dir (args : Namespace) (rank : nat) :
  originals_file_name args rank ≠ rank_dir args rank.
Proof. by apply os_path_join_ne_dir. Qed.

Lemma translations_ne_dir (args : Namespace) (rank : nat) :
  translations_file_name args rank ≠ rank_dir args rank.
Proof. by apply os_path_join_ne_dir. Qed.

Lemma slash_free_app (s t : string) :
  slash_free (s +:+ t) = slash_free s && slash_free t.
Proof.
  induction s as [|c s IH]; [done|].
  rewrite str_app_cons. cbn [slash_free]. rewrite IH. by rewrite andb_assoc.
Qed.

Lemma slash_free_pretty_N_go (x : N) (s : string) :
  slash_free (pretty_N_go x s) = slash_free s.
Proof.
  revert s. induction (N.lt_wf_0 x) as [x _ IH]; intros s.
  destruct (decide (x = 0)%N) as [->|Hx]; [by rewrite pretty_N_go_0|].
  rewrite pretty_N_go_step by lia.
  rewrite IH by (apply N.div_lt; lia). cbn [slash_free].
  replace (Ascii.eqb (pretty_N_char (x `mod` 10)) "/") with false; [done|].
  unfold pretty_N_char. by repeat case_match.
Qed.

(** The rendering of a rank has no slash in it. *)
Lemma slash_free_pretty (n : nat) : slash_free (pretty n) = true.
Proof.
  unfold pretty, pretty_nat, pretty, pretty_N.
  destruct (decide (N.of_nat n = 0)%N); [done|].
  by rewrite slash_free_pretty_N_go.
Qed.

(** ** Running computations *)

Lemma bind_run {A B} (m : M A) (f : A → M B) (w : world) :
  (m ≫= f) w =
    match m w with
    | (w', Return a) => f a w'
    | (w', Raise e) => (w', Raise e)
    end.
Proof. reflexivity. Qed.

Lemma bind_return_inv {A B} (m : M A) (f : A → M B) w w' b :
  (m ≫= f) w = (w', Return b) →
  ∃ w1 a, m w = (w1, Return a) ∧ f a w1 = (w', Return b).
Proof.
  rewrite bind_run. destruct (m w) as [w1 [a|e]]; [eauto | done].
Qed.

Lemma never_mret {A} e (a : A) : never e (mret a).
Proof. by intros w. Qed.

Lemma never_lift {A} e (o : outcome A) : o ≠ Raise e → never e (lift o).
Proof. by intros Ho w. Qed.

Lemma never_bind {A B} e (m : M A) (f : A → M B) :
  never e m → (∀ a, never e (f a)) → never e (m ≫= f).
Proof.
  intros Hm Hf w. rewrite bind_run. specialize (Hm w).
  destruct (m w) as [w1 [a|e']]; [apply Hf |].
  simpl in *. intros [= ->]. by apply Hm.
Qed.

Lemma never_for_each {A} e (l : list A) (body : A → M unit) :
  (∀ a, never e (body a)) → never e (for_each l body).
Proof.
  intros Hbody. induction l as [|a l IH]; [apply never_mret |].
  apply never_bind; [apply Hbody | by intros _].
Qed.

Lemma never_for_enumerate {A S} e (l : list A) (body : nat → A → S → M S) i s :
  (∀ i a s, never e (body i a s)) → never e (for_enumerate i l s body).
Proof.
  intros Hbody. revert i s. induction l as [|a l IH]; intros i s.
  - apply never_mret.
  - apply never_bind; [apply Hbody | intros s'; apply IH].
Qed.

Lemma never_with_open_w {A} e p (body : M A) :
  (∀ q, e ≠ IsADirectoryError q) → never e body → never e (with_open_w p body).
Proof.
  intros He Hbody w. unfold with_open_w, open_w.
  destruct (fs w !! p) as [[|chunks]|]; simpl;
    try (match goal with |- context [body ?w1] =>
           specialize (Hbody w1); by destruct (body w1) end).
  intros [= <-]. by eapply He.
Qed.

Lemma never_write e p s : (∀ msg, e ≠ ValueError msg) → never e (write p s).
Proof.
  intros He w. unfold write. case_bool_decide; simpl; [done|].
  intros [= <-]. by eapply He.
Qed.

Lemma never_use {A} e name (v : option A) :
  e ≠ UnboundLocalError name → never e (use name v).
Proof. intros He w. destruct v; simpl; [done | congruence]. Qed.

(** ** Preparing a batch (lines 126-129) *)

Lemma prepare_at_middle (rank : nat) (done rest : list tensor) (t : tensor) :
  prepare_at rank (done ++ t :: rest) (length done) =
    Return ((done ++ [prepared rank t]) ++ rest).
Proof.
  unfold prepare_at, prepared. rewrite list_lookup_middle by done.
  destruct (ndim t =? 3)%nat.
  - rewrite insert_app_r_alt, Nat.sub_diag by done. simpl.
    rewrite list_lookup_middle by done.
    rewrite insert_app_r_alt, Nat.sub_diag by done. simpl.
    by rewrite <- app_assoc.
  - rewrite list_lookup_middle by done.
    rewrite insert_app_r_alt, Nat.sub_diag by done. simpl.
    by rewrite <- app_assoc.
Qed.

Lemma prepare_from_rest (rank : nat) (rest done : list tensor) :
  prepare_from rank (seq (length done) (length rest)) (done ++ rest) =
    Return (done ++ map (prepared rank) rest).
Proof.
  revert done. induction rest as [|t rest IH]; intros done; simpl.
  - done.
  - rewrite prepare_at_middle.
    specialize (IH (done ++ [prepared rank t])).
    rewrite length_app, Nat.add_1_r in IH. rewrite IH.
    by rewrite <- app_assoc.
Qed.

(** The loop over the indices of a batch rewrites every tensor, and never
    raises. *)
Lemma prepare_map (rank : nat) (batch : list tensor) :
  prepare rank batch = Return (map (prepared rank) batch).
Proof. apply (prepare_from_rest rank batch []). Qed.

(** ** Writing to an open file *)

Lemma write_run p s w :
  p ∈ opened w → write p s w = (exec (write p s) w, Return tt).
Proof. intros Hp. unfold exec, write. by rewrite bool_decide_eq_true_2. Qed.

Lemma opened_write p s w : opened (exec (write p s) w) = opened w.
Proof. unfold exec, write. by case_bool_decide. Qed.

Lemma log_write p s w : log (exec (write p s) w) = log w.
Proof. unfold exec, write. by case_bool_decide. Qed.

Lemma fs_write_same p s w :
  p ∈ opened w → fs (exec (write p s) w) !! p = Some (File (content w p ++ [s])).
Proof.
  intros Hp. unfold exec, write. rewrite bool_decide_eq_true_2 by done.
  simpl. apply lookup_insert_eq.
Qed.

(** A write puts the new string after everything the file already holds. *)
Lemma content_write_same p s w :
  p ∈ opened w → content (exec (write p s) w) p = content w p ++ [s].
Proof. intros Hp. unfold content at 1. by rewrite fs_write_same. Qed.

Lemma fs_write_other p q s w :
  q ≠ p → fs (exec (write p s) w) !! q = fs w !! q.
Proof.
  intros Hq. unfold exec, write. case_bool_decide; [|done].
  simpl. by apply lookup_insert_ne.
Qed.

Lemma trace_write p s w :
  p ∈ opened w → trace (exec (write p s) w) = trace w ++ [EvWrite p s].
Proof. intros Hp. unfold exec, write. by rewrite bool_decide_eq_true_2. Qed.

Lemma write_lines_snoc p lines s w :
  write_lines p (lines ++ [s]) w = exec (write p s) (write_lines p lines w).
Proof. unfold write_lines. by rewrite foldl_snoc. Qed.

Lemma opened_write_lines p lines w : opened (write_lines p lines w) = opened w.
Proof.
  induction lines as [|s lines IH] using rev_ind; [done|].
  by rewrite write_lines_snoc, opened_write.
Qed.

Lemma log_write_lines p lines w : log (write_lines p lines w) = log w.
Proof.
  induction lines as [|s lines IH] using rev_ind; [done|].
  by rewrite write_lines_snoc, log_write.
Qed.

Lemma content_write_lines p lines w :
  p ∈ opened w → content (write_lines p lines w) p = content w p ++ lines.
Proof.
  intros Hp. induction lines as [|s lines IH] using rev_ind.
  - by rewrite app_nil_r.
  - rewrite write_lines_snoc, content_write_same, IH, app_assoc; [done|].
    by rewrite opened_write_lines.
Qed.

Lemma fs_write_lines_other p q lines w :
  q ≠ p → fs (write_lines p lines w) !! q = fs w !! q.
Proof.
  intros Hq. induction lines as [|s lines IH] using rev_ind; [done|].
  by rewrite write_lines_snoc, fs_write_other.
Qed.

Lemma content_write_lines_other p q lines w :
  q ≠ p → content (write_lines p lines w) q = content w q.
Proof. intros Hq. unfold content. by rewrite fs_write_lines_other. Qed.

Lemma trace_write_lines p lines w :
  p ∈ opened w →
  trace (write_lines p lines w) = trace w ++ map (EvWrite p) lines.
Proof.
  intros Hp. induction lines as [|s lines IH] using rev_ind.
  - by rewrite app_nil_r.
  - rewrite write_lines_snoc, trace_write, IH, map_app, app_assoc; [done|].
    by rewrite opened_write_lines.
Qed.

(** A loop that writes one line per element writes them all, in order. *)
Lemma for_each_line {A} p (line : A → M string) (f : A → string) l w :
  (∀ a w, line a w = (w, Return (f a))) →
  p ∈ opened w →
  for_each l (λ a, s ← line a; write p (s +:+ nl)) w =
    (write_lines p (map (λ a, f a +:+ nl) l) w, Return tt).
Proof.
  intros Hline. revert w. induction l as [|a l IH]; intros w Hp; [done|].
  cbn [for_each]. rewrite !bind_run, Hline, write_run by done.
  rewrite IH by (by rewrite opened_write). done.
Qed.

(** ** Detokenizers *)

Lemma select_detokenizer_final (lang : string) :
  select_detokenizer lang = Some (final_detokenizer lang).
Proof.
  unfold select_detokenizer, final_detokenizer.
  by destruct (String.eqb lang "zh").
Qed.

Lemma truthy_ne_empty (s : string) : truthy s = true ↔ s ≠ "".
Proof.
  unfold truthy. rewrite negb_true_iff. apply String.eqb_neq.
Qed.

Lemma sp_guard_target_ja (args : Namespace) :
  String.eqb (target_lang args) "ja" = true → sp_guard args = true.
Proof.
  intros Hja%String.eqb_eq. unfold sp_guard. by rewrite Hja.
Qed.

Section lines.
Context `{NeMo}.

Lemma translation_line_run args m t w :
  translation_line args m (assign_detokenizers args) t w =
    (w, Return (translation_text args m t)).
Proof.
  unfold translation_line, translation_text, sp_pass, assign_detokenizers.
  cbn [target_detokenizer sp_detokenizer].
  rewrite select_detokenizer_final. unfold select_sp_detokenizer.
  destruct (String.eqb (target_lang args) "ja") eqn:Hja; [|done].
  by rewrite (sp_guard_target_ja args Hja).
Qed.

Lemma original_line_run args m o w :
  original_line args m (assign_detokenizers args) o w =
    (w, Return (original_text args m o)).
Proof.
  unfold original_line, original_text, sp_pass, assign_detokenizers.
  cbn [source_detokenizer sp_detokenizer].
  rewrite select_detokenizer_final. unfold select_sp_detokenizer.
  destruct (String.eqb (target_lang args) "ja") eqn:Hja; [|done].
  by rewrite (sp_guard_target_ja args Hja).
Qed.

Lemma rows_of_len (t : tensor) (n : nat) :
  tensor_len t = Return n → rows t = Return (map (row t) (seq 0 n)).
Proof. unfold tensor_len, rows. destruct (shape t); naive_solver. Qed.

Lemma rows_length (t : tensor) (ts : list tensor) (n : nat) :
  rows t = Return ts → tensor_len t = Return n → length ts = n.
Proof.
  intros Hrows Hlen. rewrite (rows_of_len t n Hlen) in Hrows.
  injection Hrows as <-. by rewrite length_map, length_seq.
Qed.

Lemma log_progress rank i num w :
  (if (i mod 100 =? 0)%nat
   then logging_info (progress_msg i num rank) else mret tt) w =
    (log_all (progress rank i num) w, Return tt).
Proof.
  unfold progress, log_all. destruct (i mod 100 =? 0)%nat; [done|].
  destruct w. cbn. by rewrite app_nil_r.
Qed.

(** One turn of the loop, when nothing goes wrong: the progress line if it
    is due, then the translations, then the originals. *)
Lemma loop_body_run rank args m of_ tf i batch num w r :
  of_ ∈ opened w → tf ∈ opened w →
  batch_out rank args m i batch = Return r →
  loop_body rank args m (assign_detokenizers args) of_ tf i batch num w =
    (body_world rank of_ tf i num r w, Return (num + sentences r)).
Proof.
  intros Hof Htf Hout. unfold loop_body, loop_body_unpacked, batch_out in *.
  rewrite prepare_map. rewrite bind_run. unfold lift at 1.
  rewrite bind_run. unfold lift at 1.
  destruct (unpack (twoside args) (map (prepared rank) batch))
    as [[src_ids src_mask]|e]; [|done].
  rewrite bind_run, log_progress. rewrite bind_run. unfold lift at 1.
  destruct (tensor_len src_ids) as [n|e]; [|done].
  rewrite bind_run. unfold lift at 1.
  destruct (rows (to Cpu (forward m i src_ids src_mask))) as [ts|e]; [|done].
  destruct (rows src_ids) as [os|e]; [|done].
  injection Hout as <-. unfold body_world. cbn [translation_lines original_lines sentences].
  rewrite bind_run.
  rewrite (for_each_line tf _ (translation_text args m))
    by (try done; apply translation_line_run).
  rewrite bind_run. unfold lift at 1.
  rewrite bind_run.
  rewrite (for_each_line of_ _ (original_text args m));
    [done | apply original_line_run |].
  by rewrite opened_write_lines.
Qed.

(** One turn of the loop, when the batch is not as expected: the exception
    comes before anything is written. *)
Lemma loop_body_raise rank args m of_ tf i batch num w e :
  batch_out rank args m i batch = Raise e →
  ∃ w', loop_body rank args m (assign_detokenizers args) of_ tf i batch num w
          = (w', Raise e) ∧
        fs w' = fs w ∧ opened w' = opened w ∧ trace w' = trace w.
Proof.
  intros Hout. unfold loop_body, loop_body_unpacked, batch_out in *.
  rewrite prepare_map. rewrite bind_run. unfold lift at 1.
  rewrite bind_run. unfold lift at 1.
  destruct (unpack (twoside args) (map (prepared rank) batch))
    as [[src_ids src_mask]|e']; [|injection Hout as ->; by eexists].
  rewrite bind_run, log_progress. rewrite bind_run. unfold lift at 1.
  destruct (tensor_len src_ids) as [n|e'] eqn:Hlen;
    [|injection Hout as ->; by eexists].
  rewrite bind_run. unfold lift at 1.
  destruct (rows (to Cpu (forward m i src_ids src_mask))) as [ts|e'];
    [|injection Hout as ->; by eexists].
  by rewrite (rows_of_len _ _ Hlen) in Hout.
Qed.
End lines.

(** ** The batch loop *)

Section loop.
Context `{NeMo}.
Variables (rank : nat) (of_ tf : string).
Hypothesis of_ne_tf : of_ ≠ tf.

Lemma opened_body_world i num r w :
  opened (body_world rank of_ tf i num r w) = opened w.
Proof. unfold body_world. by rewrite !opened_write_lines. Qed.

Lemma log_body_world i num r w :
  log (body_world rank of_ tf i num r w) = log w ++ progress rank i num.
Proof. unfold body_world. by rewrite !log_write_lines. Qed.

Lemma content_body_world_tf i num r w :
  tf ∈ opened w →
  content (body_world rank of_ tf i num r w) tf =
    content w tf ++ translation_lines r.
Proof.
  intros Htf. unfold body_world.
  rewrite content_write_lines_other by done.
  by rewrite content_write_lines.
Qed.

Lemma content_body_world_of i num r w :
  of_ ∈ opened w →
  content (body_world rank of_ tf i num r w) of_ =
    content w of_ ++ original_lines r.
Proof.
  intros Hof. unfold body_world.
  rewrite content_write_lines by (by rewrite opened_write_lines).
  by rewrite content_write_lines_other.
Qed.

Lemma fs_body_world_other i num r w q :
  q ≠ of_ → q ≠ tf →
  fs (body_world rank of_ tf i num r w) !! q = fs w !! q.
Proof.
  intros Hq1 Hq2. unfold body_world.
  by rewrite !fs_write_lines_other.
Qed.

Lemma trace_body_world i num r w :
  of_ ∈ opened w → tf ∈ opened w →
  trace (body_world rank of_ tf i num r w) =
    trace w ++ map (EvWrite tf) (translation_lines r) ++
               map (EvWrite of_) (original_lines r).
Proof.
  intros Hof Htf. unfold body_world.
  rewrite trace_write_lines by (by rewrite opened_write_lines).
  rewrite trace_write_lines by done. by rewrite <- app_assoc.
Qed.

Lemma opened_loop_world rs i num w :
  opened (loop_world rank of_ tf i num rs w) = opened w.
Proof.
  revert i num w. induction rs as [|r rs IH]; intros i num w; [done|].
  cbn [loop_world]. by rewrite IH, opened_body_world.
Qed.

Lemma log_loop_world rs i num w :
  log (loop_world rank of_ tf i num rs w) = log w ++ progress_log rank i num rs.
Proof.
  revert i num w. induction rs as [|r rs IH]; intros i num w.
  - by rewrite app_nil_r.
  - cbn [loop_world progress_log]. by rewrite IH, log_body_world, app_assoc.
Qed.

Lemma content_loop_world_tf rs i num w :
  tf ∈ opened w →
  content (loop_world rank of_ tf i num rs w) tf =
    content w tf ++ concat (map translation_lines rs).
Proof.
  revert i num w. induction rs as [|r rs IH]; intros i num w Htf.
  - by rewrite app_nil_r.
  - cbn [loop_world map concat].
    rewrite IH by (by rewrite opened_body_world).
    by rewrite content_body_world_tf, app_assoc.
Qed.

Lemma content_loop_world_of rs i num w :
  of_ ∈ opened w →
  content (loop_world rank of_ tf i num rs w) of_ =
    content w of_ ++ concat (map original_lines rs).
Proof.
  revert i num w. induction rs as [|r rs IH]; intros i num w Hof.
  - by rewrite app_nil_r.
  - cbn [loop_world map concat].
    rewrite IH by (by rewrite opened_body_world).
    by rewrite content_body_world_of, app_assoc.
Qed.

Lemma fs_loop_world_other rs i num w q :
  q ≠ of_ → q ≠ tf →
  fs (loop_world rank of_ tf i num rs w) !! q = fs w !! q.
Proof.
  intros Hq1 Hq2. revert i num w.
  induction rs as [|r rs IH]; intros i num w; [done|].
  cbn [loop_world]. by rewrite IH, fs_body_world_other.
Qed.

Lemma trace_loop_world rs i num w :
  of_ ∈ opened w → tf ∈ opened w →
  trace (loop_world rank of_ tf i num rs w) = trace w ++ loop_trace of_ tf rs.
Proof.
  revert i num w. induction rs as [|r rs IH]; intros i num w Hof Htf.
  - unfold loop_trace. simpl. by rewrite app_nil_r.
  - cbn [loop_world]. rewrite IH by (by rewrite opened_body_world).
    rewrite trace_body_world by done. unfold loop_trace. simpl.
    by rewrite <- !app_assoc.
Qed.

(** A file stays a file: writing never turns it into anything else. *)
Lemma fs_loop_world_file rs i num w p :
  p ∈ opened w → (∃ c, fs w !! p = Some (File c)) →
  fs (loop_world rank of_ tf i num rs w) !! p =
    Some (File (content (loop_world rank of_ tf i num rs w) p)).
Proof.
  intros Hp [c Hc].
  assert (∀ q lines w0, (∃ c0, fs w0 !! p = Some (File c0)) →
            ∃ c0, fs (write_lines q lines w0) !! p = Some (File c0)) as Hw.
  { intros q lines w0 Hw0.
    induction lines as [|s lines IH] using rev_ind; [done|].
    rewrite write_lines_snoc. unfold exec, write.
    case_bool_decide; [simpl | done].
    destruct (decide (q = p)) as [->|Hne].
    - rewrite lookup_insert_eq. by eexists.
    - by rewrite lookup_insert_ne. }
  assert (∃ c0, fs (loop_world rank of_ tf i num rs w) !! p = Some (File c0))
    as [c0 Hc0].
  { clear Hp. revert i num w c Hc.
    induction rs as [|r rs IH]; intros i num w c Hc; [by eexists|].
    cbn [loop_world]. unfold body_world.
    destruct (Hw of_ (original_lines r)
                (write_lines tf (translation_lines r)
                   (log_all (progress rank i num) w))) as [c1 Hc1].
    { apply Hw. by exists c. }
    by apply (IH _ _ _ c1). }
  unfold content. by rewrite Hc0.
Qed.

Variables (args : Namespace) (m : MTEncDecModel).

(** The loop over the batches, when every batch is as expected. *)
Lemma loop_run bs rs i num w :
  of_ ∈ opened w → tf ∈ opened w →
  loop_outs rank args m i bs = Return rs →
  for_enumerate i bs num
    (loop_body rank args m (assign_detokenizers args) of_ tf) w =
    (loop_world rank of_ tf i num rs w, Return (num + total_sentences rs)).
Proof.
  revert rs i num w. induction bs as [|b bs IH]; intros rs i num w Hof Htf Hrs.
  - injection Hrs as <-. simpl. by rewrite Nat.add_0_r.
  - cbn [loop_outs] in Hrs.
    destruct (batch_out rank args m i b) as [r|e] eqn:Hb; [|done].
    destruct (loop_outs rank args m (S i) bs) as [rs'|e] eqn:Hbs; [|done].
    injection Hrs as <-. cbn [for_enumerate].
    rewrite bind_run, (loop_body_run _ _ _ _ _ _ _ _ _ r) by done.
    rewrite (IH rs') by (by rewrite ?opened_body_world).
    cbn [loop_world total_sentences foldr]. by rewrite Nat.add_assoc.
Qed.

(** The loop over the batches, when some batch is not: the exception of the
    first such batch ends the loop. *)
Lemma loop_raise bs e i num w :
  of_ ∈ opened w → tf ∈ opened w →
  loop_outs rank args m i bs = Raise e →
  (for_enumerate i bs num
     (loop_body rank args m (assign_detokenizers args) of_ tf) w).2 = Raise e.
Proof.
  revert i num w. induction bs as [|b bs IH]; intros i num w Hof Htf Hrs; [done|].
  cbn [loop_outs] in Hrs. cbn [for_enumerate]. rewrite bind_run.
  destruct (batch_out rank args m i b) as [r|e'] eqn:Hb.
  - rewrite (loop_body_run _ _ _ _ _ _ _ _ _ r) by done.
    destruct (loop_outs rank args m (S i) bs) as [rs'|e''] eqn:Hbs; [done|].
    injection Hrs as ->. apply IH; by rewrite ?opened_body_world.
  - injection Hrs as ->.
    destruct (loop_body_raise rank args m of_ tf i b num w e Hb)
      as (w' & -> & _). done.
Qed.
End loop.

(** ** The [with] block *)

Lemma open_w_run p w :
  fs w !! p ≠ Some Dir → open_w p w = (exec (open_w p) w, Return tt).
Proof.
  intros Hp. unfold exec, open_w. by destruct (fs w !! p) as [[|c]|].
Qed.

Lemma open_w_dir p w :
  fs w !! p = Some Dir → open_w p w = (w, Raise (IsADirectoryError p)).
Proof. intros Hp. unfold open_w. by rewrite Hp. Qed.

Lemma fs_open_w p w :
  fs w !! p ≠ Some Dir → fs (exec (open_w p) w) = <[p := File []]> (fs w).
Proof.
  intros Hp. unfold exec, open_w. by destruct (fs w !! p) as [[|c]|].
Qed.

Lemma opened_open_w p w :
  fs w !! p ≠ Some Dir → opened (exec (open_w p) w) = p :: opened w.
Proof.
  intros Hp. unfold exec, open_w. by destruct (fs w !! p) as [[|c]|].
Qed.

Lemma trace_open_w p w :
  fs w !! p ≠ Some Dir → trace (exec (open_w p) w) = trace w ++ [EvOpen p].
Proof.
  intros Hp. unfold exec, open_w. by destruct (fs w !! p) as [[|c]|].
Qed.

Lemma log_open_w p w : log (exec (open_w p) w) = log w.
Proof. unfold exec, open_w. by destruct (fs w !! p) as [[|c]|]. Qed.

Section with_files.
Variables (of_ tf : string) (w : world).
Hypothesis of_ne_tf : of_ ≠ tf.
Hypothesis of_not_dir : fs w !! of_ ≠ Some Dir.
Hypothesis tf_not_dir : fs w !! tf ≠ Some Dir.

Lemma tf_not_dir_after_open : fs (exec (open_w of_) w) !! tf ≠ Some Dir.
Proof. rewrite fs_open_w by done. by rewrite lookup_insert_ne. Qed.

Lemma fs_opened_world :
  fs (opened_world of_ tf w) = <[tf := File []]> (<[of_ := File []]> (fs w)).
Proof.
  unfold opened_world. rewrite fs_open_w by apply tf_not_dir_after_open.
  by rewrite fs_open_w.
Qed.

Lemma opened_opened_world :
  opened (opened_world of_ tf w) = tf :: of_ :: opened w.
Proof.
  unfold opened_world. rewrite opened_open_w by apply tf_not_dir_after_open.
  by rewrite opened_open_w.
Qed.

Lemma trace_opened_world :
  trace (opened_world of_ tf w) = trace w ++ [EvOpen of_; EvOpen tf].
Proof.
  unfold opened_world. rewrite trace_open_w by apply tf_not_dir_after_open.
  rewrite trace_open_w by done. by rewrite <- app_assoc.
Qed.

Lemma log_opened_world : log (opened_world of_ tf w) = log w.
Proof. unfold opened_world. by rewrite !log_open_w. Qed.

Lemma content_opened_world_of : content (opened_world of_ tf w) of_ = [].
Proof.
  unfold content. rewrite fs_opened_world.
  rewrite lookup_insert_ne by done. by rewrite lookup_insert_eq.
Qed.

Lemma content_opened_world_tf : content (opened_world of_ tf w) tf = [].
Proof. unfold content. rewrite fs_opened_world. by rewrite lookup_insert_eq. Qed.

(** Both files are opened, the body runs, both files are closed. *)
Lemma with_files_run {A} (body : M A) :
  with_open_w of_ (with_open_w tf body) w =
    (closed_world of_ tf (body (opened_world of_ tf w)).1,
     (body (opened_world of_ tf w)).2).
Proof.
  unfold with_open_w at 1. rewrite open_w_run by done.
  unfold with_open_w. rewrite open_w_run by apply tf_not_dir_after_open.
  unfold closed_world, opened_world.
  by destruct (body _) as [w2 r].
Qed.
End with_files.

Lemma with_files_raise_of {A} of_ tf (body : M A) w :
  fs w !! of_ = Some Dir →
  with_open_w of_ (with_open_w tf body) w = (w, Raise (IsADirectoryError of_)).
Proof. intros Hof. unfold with_open_w at 1. by rewrite open_w_dir. Qed.

Lemma with_files_raise_tf {A} of_ tf (body : M A) w :
  fs w !! of_ ≠ Some Dir → fs (exec (open_w of_) w) !! tf = Some Dir →
  (with_open_w of_ (with_open_w tf body) w).2 = Raise (IsADirectoryError tf).
Proof.
  intros Hof Htf. unfold with_open_w at 1. rewrite open_w_run by done.
  unfold with_open_w. by rewrite open_w_dir.
Qed.

Lemma fs_closed_world of_ tf w : fs (closed_world of_ tf w) = fs w.
Proof. reflexivity. Qed.

Lemma log_closed_world of_ tf w : log (closed_world of_ tf w) = log w.
Proof. reflexivity. Qed.

Lemma trace_closed_world of_ tf w :
  trace (closed_world of_ tf w) = trace w ++ [EvClose tf; EvClose of_].
Proof. unfold closed_world, close. simpl. by rewrite <- app_assoc. Qed.

Lemma opened_closed_world of_ tf w :
  opened (closed_world of_ tf w) =
    filter (λ q, q ≠ of_) (filter (λ q, q ≠ tf) (opened w)).
Proof. reflexivity. Qed.

(** After the [with] block neither file is open. *)
Lemma closed_world_closed of_ tf w :
  (of_ ∉ opened (closed_world of_ tf w)) ∧ (tf ∉ opened (closed_world of_ tf w)).
Proof.
  rewrite opened_closed_world. split; intros Hin.
  - by apply list_elem_of_filter in Hin as [? _].
  - apply list_elem_of_filter in Hin as [_ Hin].
    by apply list_elem_of_filter in Hin as [? _].
Qed.

(** ** Making directories *)

Lemma cut_length p :
  String.length (cut_after_last_slash p).1 +
  String.length (cut_after_last_slash p).2 = String.length p.
Proof.
  induction p as [|c p IH]; [done|]. cbn [cut_after_last_slash].
  destruct (cut_after_last_slash p) as [[|d h] t]; simpl in *.
  - destruct (Ascii.eqb c "/"); simpl; lia.
  - lia.
Qed.

Lemma rstrip_length s : String.length (rstrip_slash s) ≤ String.length s.
Proof.
  induction s as [|c s IH]; [done|]. cbn [rstrip_slash].
  destruct (rstrip_slash s) as [|d r]; simpl in *.
  - destruct (Ascii.eqb c "/"); simpl; lia.
  - lia.
Qed.

Lemma split_head_length p :
  String.length (os_path_split p).1 ≤ String.length (cut_after_last_slash p).1.
Proof.
  unfold os_path_split. destruct (cut_after_last_slash p) as [h t]. cbn [fst].
  destruct (truthy h && negb (all_slashes h)); [apply rstrip_length | done].
Qed.

Lemma split_length p :
  String.length (os_path_split p).1 + String.length (os_path_split p).2
    ≤ String.length p.
Proof.
  pose proof (split_head_length p). pose proof (cut_length p).
  unfold os_path_split in *. destruct (cut_after_last_slash p) as [h t].
  simpl in *. lia.
Qed.

Lemma split_tail p : (os_path_split p).2 = (cut_after_last_slash p).2.
Proof. unfold os_path_split. by destruct (cut_after_last_slash p). Qed.

Lemma truthy_length s : truthy s = true → 0 < String.length s.
Proof. destruct s; [done | simpl; lia]. Qed.

(** The cut of a path that ends with a slash-free name. *)
Lemma cut_slash_free r : slash_free r = true → cut_after_last_slash r = ("", r).
Proof.
  induction r as [|c r IH]; [done|]. cbn [slash_free cut_after_last_slash].
  intros [Hc Hr]%andb_prop. rewrite (IH Hr).
  by destruct (Ascii.eqb c "/").
Qed.

Lemma cut_app pre r :
  slash_free r = true →
  cut_after_last_slash (pre +:+ r) =
    ((cut_after_last_slash pre).1, (cut_after_last_slash pre).2 +:+ r).
Proof.
  intros Hr. induction pre as [|c pre IH]; [by apply cut_slash_free|].
  rewrite str_app_cons. cbn [cut_after_last_slash]. rewrite IH.
  destruct (cut_after_last_slash pre) as [[|d h] t]; cbn [fst snd]; [|done].
  by destruct (Ascii.eqb c "/").
Qed.

Lemma mkdir_spec p f f' r :
  mkdir p f = (f', r) →
  match r with
  | Return _ => f !! p = None ∧ f' = <[p := Dir]> f
  | Raise e =>
      f' = f ∧
      (e = FileNotFoundError p ∨ e = NotADirectoryError p ∨ e = FileExistsError p)
  end.
Proof.
  unfold mkdir. destruct (String.eqb p "") eqn:Hp; [intros [= <- <-]; auto|].
  destruct (searchable f _) eqn:Hs; cbn [negb].
  2:{ intros [= <- <-]. split; [done|]. destruct (f !! _) as [[]|]; auto. }
  unfold os_path_exists, stat. rewrite Hp, Hs.
  destruct (all_slashes p).
  { rewrite bool_decide_eq_true_2 by done. intros [= <- <-]. auto. }
  destruct (f !! p) as [n|] eqn:Hn.
  - rewrite bool_decide_eq_true_2 by done. intros [= <- <-]. auto.
  - rewrite bool_decide_eq_false_2 by (by intros [? ?]). by intros [= <- <-].
Qed.

Lemma stat_isdir f p :
  os_path_isdir f p = true → all_slashes p = false → f !! p = Some Dir.
Proof.
  unfold os_path_isdir, stat. intros H%bool_decide_eq_true Hs.
  rewrite Hs in H. destruct (String.eqb p ""); [done|].
  by destruct (searchable f _).
Qed.

Lemma mkdir_exist_ok_spec p f f' r :
  mkdir_exist_ok p f = (f', r) →
  match r with
  | Return _ =>
      (f !! p = None ∧ f' = <[p := Dir]> f) ∨
      (f' = f ∧ os_path_isdir f p = true)
  | Raise e =>
      f' = f ∧ os_path_isdir f p = false ∧
      (e = FileNotFoundError p ∨ e = NotADirectoryError p ∨ e = FileExistsError p)
  end.
Proof.
  unfold mkdir_exist_ok.
  destruct (mkdir p f) as [f1 [[]|e]] eqn:Hmk; apply mkdir_spec in Hmk.
  - intros [= <- <-]. by left.
  - destruct Hmk as [-> He].
    destruct (os_path_isdir f p) eqn:Hd; intros [= <- <-]; auto.
Qed.

(** What [makedirs] may change: a path is as before, or was absent and is
    now a directory. Apart from [name], only paths no longer than its head
    are changed. It raises only [OSError]s. *)
Lemma mkdir_exist_ok_changes p f f' r :
  mkdir_exist_ok p f = (f', r) →
  (∀ q, f' !! q = f !! q ∨ (q = p ∧ f !! q = None ∧ f' !! q = Some Dir)) ∧
  (∀ e, r = Raise e → is_OSError e = true).
Proof.
  intros H%mkdir_exist_ok_spec. destruct r as [[]|e].
  - destruct H as [[Hp ->]|[-> _]]; (split; [|done]); intros q; [|by left].
    destruct (decide (q = p)) as [->|Hq].
    + right. by rewrite lookup_insert_eq.
    + left. by rewrite lookup_insert_ne.
  - destruct H as (-> & _ & He). split; [by left|].
    intros e' [= <-]. by destruct He as [->|[->| ->]].
Qed.

Lemma makedirs_go_changes fuel name f f' r :
  makedirs_go fuel name f = (f', r) →
  (∀ q, f' !! q = f !! q ∨ (f !! q = None ∧ f' !! q = Some Dir)) ∧
  (∀ q, f' !! q ≠ f !! q →
        q = name ∨ String.length q ≤ String.length (os_path_split name).1) ∧
  (∀ e, r = Raise e → is_OSError e = true).
Proof.
  revert name f f' r. induction fuel as [|fuel IH]; intros name f f' r.
  - cbn [makedirs_go].
    destruct (os_path_split name) as [h1 t1].
    destruct (if truthy t1 then (h1, t1) else os_path_split h1) as [h t].
    assert (mkdir_exist_ok name f = (f', r) → 
      (∀ q, f' !! q = f !! q ∨ (f !! q = None ∧ f' !! q = Some Dir)) ∧
      (∀ q, f' !! q ≠ f !! q → q = name ∨ String.length q ≤ String.length (h1, t1).1) ∧
      (∀ e, r = Raise e → is_OSError e = true)) as Hmk.
    { intros [Hq He]%mkdir_exist_ok_changes. split_and!; [|intros q Hne|done].
      - intros q. destruct (Hq q) as [?|(_ & ? & ?)]; auto.
      - destruct (Hq q) as [?|(? & _)]; [done | by left]. }
    by destruct (_ && _).
  - cbn [makedirs_go].
    pose proof (split_length name) as Hlen1.
    destruct (os_path_split name) as [h1 t1] eqn:Hs1. cbn [fst snd] in *.
    assert (∀ g, mkdir_exist_ok name g = (f', r) → 
      (∀ q, f' !! q = g !! q ∨ (q = name ∧ g !! q = None ∧ f' !! q = Some Dir)) ∧
      (∀ e, r = Raise e → is_OSError e = true)) as Hmk.
    { intros g. apply mkdir_exist_ok_changes. }
    assert (∃ h t, (if truthy t1 then (h1, t1) else os_path_split h1) = (h, t) ∧
                   String.length h ≤ String.length h1) as (h & t & -> & Hh).
    { destruct (truthy t1); [by eexists _, _|].
      pose proof (split_length h1). destruct (os_path_split h1) as [h t].
      exists h, t. simpl in *. split; [done | lia]. }
    destruct (truthy h && truthy t && negb (os_path_exists f h)).
    2:{ intros [Hq He]%Hmk. split_and!; [|intros q Hne|done].
        - intros q. destruct (Hq q) as [?|(_ & ? & ?)]; auto.
        - destruct (Hq q) as [?|(? & _)]; [done | by left]. }
    destruct (makedirs_go fuel h f) as [f1 r1] eqn:Hrec.
    apply IH in Hrec as (Hq1 & Hb1 & He1).
    pose proof (split_length h) as Hlenh.
    assert (∀ q, f1 !! q ≠ f !! q → String.length q ≤ String.length h1) as Hb1'.
    { intros q Hq. destruct (Hb1 q Hq) as [->|?]; lia. }
    assert ((f1, Return tt) = (f', r) ∨ mkdir_exist_ok name f1 = (f', r) → 
      (∀ q, f' !! q = f !! q ∨ (f !! q = None ∧ f' !! q = Some Dir)) ∧
      (∀ q, f' !! q ≠ f !! q → q = name ∨ String.length q ≤ String.length h1) ∧
      (∀ e, r = Raise e → is_OSError e = true)) as Hgo.
    { intros [[= <- <-]|[Hq He]%Hmk].
      - split_and!; [done | | done]. intros q Hq. right. by apply Hb1'.
      - split_and!; [| |done].
        + intros q. destruct (Hq q) as [->|(_ & Hn & ->)]; [apply Hq1|].
          destruct (Hq1 q) as [<-|[? ?]]; [by right | congruence].
        + intros q Hne. destruct (Hq q) as [Heq|(? & _)]; [|by left].
          right. apply Hb1'. congruence. }
    destruct r1 as [[]|e1].
    + destruct (String.eqb t "."); intros Heq; apply Hgo; auto.
    + destruct e1; try (intros [= <- <-]; split_and!;
        [done | intros q Hq; right; by apply Hb1' | intros e' [= <-]; by apply He1]).
      destruct (String.eqb t "."); intros Heq; apply Hgo; auto.
Qed.

Lemma all_slashes_cut p : all_slashes p = true → (cut_after_last_slash p).2 = "".
Proof.
  induction p as [|c p IH]; [done|]. cbn [all_slashes cut_after_last_slash].
  intros [Hc Hp]%andb_prop. specialize (IH Hp).
  destruct (cut_after_last_slash p) as [[|d h] t]; simpl in *; [|done].
  by rewrite Hc.
Qed.

Lemma truthy_tail_name p :
  truthy (os_path_split p).2 = true →
  String.eqb p "" = false ∧ all_slashes p = false.
Proof.
  rewrite split_tail. intros Ht. split.
  - by destruct p.
  - destruct (all_slashes p) eqn:Hs; [|done].
    by rewrite (all_slashes_cut p Hs) in Ht.
Qed.

(** When the parent of [name] is there, [makedirs] is [mkdir] with
    [exist_ok]. *)
Lemma makedirs_go_here fuel name f :
  truthy (os_path_split name).2 = true →
  (os_path_split name).1 = "" ∨ os_path_isdir f (os_path_split name).1 = true →
  makedirs_go fuel name f =
    match f !! name with
    | None => (<[name := Dir]> f, Return tt)
    | Some Dir => (f, Return tt)
    | Some (File _) => (f, Raise (FileExistsError name))
    end.
Proof.
  intros Ht Hh. destruct (truthy_tail_name name Ht) as [Hne Hns].
  assert (mkdir_exist_ok name f =
    match f !! name with
    | None => (<[name := Dir]> f, Return tt)
    | Some Dir => (f, Return tt)
    | Some (File _) => (f, Raise (FileExistsError name))
    end) as Hmk.
  { assert (searchable f (os_path_split name).1 = true) as Hs.
    { unfold searchable. destruct Hh as [->|Hd]; [done|].
      destruct (all_slashes (os_path_split name).1) eqn:Ha;
        [by rewrite orb_true_r|].
      rewrite (stat_isdir _ _ Hd Ha), bool_decide_eq_true_2 by done.
      by rewrite !orb_true_r. }
    assert (stat f name = f !! name) as Hst.
    { unfold stat. by rewrite Hne, Hns, Hs. }
    assert (mkdir name f =
      match f !! name with
      | None => (<[name := Dir]> f, Return tt)
      | Some _ => (f, Raise (FileExistsError name))
      end) as Hmkdir.
    { unfold mkdir, os_path_exists. rewrite Hne, Hs, Hst. cbn [negb].
      destruct (f !! name) as [n|].
      - by rewrite bool_decide_eq_true_2.
      - by rewrite bool_decide_eq_false_2 by (by intros [? ?]). }
    unfold mkdir_exist_ok. rewrite Hmkdir.
    destruct (f !! name) as [[|c]|] eqn:Hn; [| |done];
      cbv beta iota; unfold os_path_isdir; rewrite Hst.
    - by rewrite bool_decide_eq_true_2.
    - by rewrite bool_decide_eq_false_2. }
  assert (truthy (os_path_split name).1 &&
          truthy (os_path_split name).2 &&
          negb (os_path_exists f (os_path_split name).1) = false) as Hno.
  { destruct Hh as [->|Hd]; [done|].
    unfold os_path_exists. unfold os_path_isdir in Hd.
    apply bool_decide_eq_true in Hd. rewrite Hd.
    rewrite bool_decide_eq_true_2 by done. by rewrite andb_false_r. }
  destruct fuel; cbn [makedirs_go];
    destruct (os_path_split name) as [h t]; cbn [fst snd] in *;
    rewrite Ht, Hno; exact Hmk.
Qed.


(** After [makedirs] has returned, [name] is a directory. *)
Lemma makedirs_go_made fuel name f f' :
  truthy (os_path_split name).2 = true →
  (os_path_split name).2 ≠ "." →
  makedirs_go fuel name f = (f', Return tt) →
  f' !! name = Some Dir.
Proof.
  intros Ht Hdot. destruct (truthy_tail_name name Ht) as [Hne Hns].
  assert (∀ g, mkdir_exist_ok name g = (f', Return tt) → f' !! name = Some Dir)
    as Hmk.
  { intros g [[_ ->]|[-> Hd]]%mkdir_exist_ok_spec.
    - apply lookup_insert_eq.
    - by apply stat_isdir. }
  destruct fuel; cbn [makedirs_go];
    destruct (os_path_split name) as [h t]; cbn [fst snd] in *; rewrite Ht.
  - destruct (_ && _); apply Hmk.
  - destruct (_ && _); [|apply Hmk].
    apply String.eqb_neq in Hdot. rewrite Hdot.
    destruct (makedirs_go fuel h f) as [f1 [[]|[]]]; try done; apply Hmk.
Qed.

(** The length of [name] is fuel enough. *)
Lemma makedirs_go_fuel fuel1 fuel2 name f :
  String.length name ≤ fuel1 → String.length name ≤ fuel2 →
  makedirs_go fuel1 name f = makedirs_go fuel2 name f.
Proof.
  revert fuel2 name f.
  induction fuel1 as [|fuel1 IH]; intros fuel2 name f H1 H2.
  - destruct name; [|simpl in H1; lia]. by destruct fuel2.
  - destruct fuel2 as [|fuel2].
    { destruct name; [|simpl in H2; lia]. done. }
    cbn [makedirs_go].
    pose proof (split_length name) as Hlen1.
    destruct (os_path_split name) as [h1 t1]. cbn [fst snd] in *.
    assert (∃ h t, (if truthy t1 then (h1, t1) else os_path_split h1) = (h, t) ∧
                   String.length h + String.length t ≤ String.length name)
      as (h & t & -> & Hh).
    { destruct (truthy t1); [by eexists _, _|].
      pose proof (split_length h1). destruct (os_path_split h1) as [h t].
      exists h, t. simpl in *. split; [done | lia]. }
    destruct (truthy h) eqn:Hth; [|done].
    destruct (truthy t) eqn:Htt; [|done].
    apply truthy_length in Htt.
    destruct (negb (os_path_exists f h)); [|done]. cbn [andb].
    by rewrite (IH fuel2 h f) by lia.
Qed.








(** *** The directory of a rank, split *)

Lemma length_truthy s : 0 < String.length s → truthy s = true.
Proof. destruct s; [simpl; lia | done]. Qed.

Lemma rank_dir_stem (args : Namespace) (rank : nat) :
  rank_dir args rank =
    (result_dir args +:+
     (if String.eqb (result_dir args) "" || endswith (result_dir args) "/"
      then "" else "/")) +:+ ("rank" +:+ pretty rank).
Proof. by rewrite rank_dir_explicit, str_app_assoc. Qed.

Lemma slash_free_rank (rank : nat) : slash_free ("rank" +:+ pretty rank) = true.
Proof. by rewrite slash_free_app, slash_free_pretty. Qed.

(** Its last component is not empty and is not [.]. *)
Lemma rank_dir_tail (args : Namespace) (rank : nat) :
  truthy (os_path_split (rank_dir args rank)).2 = true ∧
  (os_path_split (rank_dir args rank)).2 ≠ ".".
Proof.
  rewrite split_tail, rank_dir_stem, cut_app by apply slash_free_rank.
  cbn [snd].
  match goal with |- truthy ?t = _ ∧ _ =>
    assert (4 ≤ String.length t) as Hlen
      by (rewrite !str_length_app; simpl; lia) end.
  split; [apply length_truthy; lia|].
  intros Heq. rewrite Heq in Hlen. simpl in Hlen. lia.
Qed.

(** Its head is shorter than every directory of a rank. *)
Lemma rank_dir_head_shorter (args : Namespace) (rank rank' : nat) :
  String.length (os_path_split (rank_dir args rank)).1 <
  String.length (rank_dir args rank').
Proof.
  eapply Nat.le_lt_trans; [apply split_head_length|].
  rewrite (rank_dir_stem args rank), cut_app by apply slash_free_rank.
  cbn [fst]. rewrite (rank_dir_stem args rank'), !str_length_app.
  match goal with |- String.length (cut_after_last_slash ?pre).1 < _ =>
    pose proof (cut_length pre) as Hcut end.
  rewrite str_length_app in Hcut. simpl. lia.
Qed.

Lemma rank_dir_head_shorter_of (args : Namespace) (rank rank' : nat) :
  String.length (os_path_split (rank_dir args rank)).1 <
  String.length (originals_file_name args rank').
Proof.
  unfold originals_file_name. rewrite file_in_rank_dir, !str_length_app by done.
  pose proof (rank_dir_head_shorter args rank rank'). lia.
Qed.

Lemma rank_dir_head_shorter_tf (args : Namespace) (rank rank' : nat) :
  String.length (os_path_split (rank_dir args rank)).1 <
  String.length (translations_file_name args rank').
Proof.
  unfold translations_file_name.
  rewrite file_in_rank_dir, !str_length_app by done.
  pose proof (rank_dir_head_shorter args rank rank'). lia.
Qed.


(** *** [os.makedirs] as an effect *)

Lemma makedirs_exist_ok_run p w :
  makedirs_exist_ok p w =
    (set_fs w (makedirs_go (String.length p) p (fs w)).1 (opened w) (trace w),
     (makedirs_go (String.length p) p (fs w)).2).
Proof. unfold makedirs_exist_ok. by destruct (makedirs_go _ _ _). Qed.

Lemma makedirs_changes p w :
  (∀ q, fs (makedirs_exist_ok p w).1 !! q = fs w !! q ∨
        (fs w !! q = None ∧ fs (makedirs_exist_ok p w).1 !! q = Some Dir)) ∧
  (∀ q, q ≠ p → String.length (os_path_split p).1 < String.length q →
        fs (makedirs_exist_ok p w).1 !! q = fs w !! q) ∧
  (∀ e, (makedirs_exist_ok p w).2 = Raise e → is_OSError e = true).
Proof.
  rewrite makedirs_exist_ok_run. cbn [fst snd fs set_fs].
  destruct (makedirs_go (String.length p) p (fs w)) as [f r] eqn:Hgo.
  apply makedirs_go_changes in Hgo as (Hmono & Hfar & Hexn).
  cbn [fst snd]. split_and!; [done | | done].
  intros q Hq Hlen. destruct (decide (f !! q = fs w !! q)) as [|Hne]; [done|].
  destruct (Hfar q Hne); [done | lia].
Qed.

Lemma makedirs_frame p w :
  opened (makedirs_exist_ok p w).1 = opened w ∧
  trace (makedirs_exist_ok p w).1 = trace w ∧
  log (makedirs_exist_ok p w).1 = log w ∧
  environ (makedirs_exist_ok p w).1 = environ w ∧
  process_group (makedirs_exist_ok p w).1 = process_group w ∧
  grad_enabled (makedirs_exist_ok p w).1 = grad_enabled w.
Proof. by rewrite makedirs_exist_ok_run. Qed.

(** When the parent is there, the directory is made unless a regular file
    has its name; nothing else changes. *)
Lemma makedirs_here p w :
  truthy (os_path_split p).2 = true →
  (os_path_split p).1 = "" ∨ os_path_isdir (fs w) (os_path_split p).1 = true →
  makedirs_exist_ok p w =
    match fs w !! p with
    | Some (File _) => (w, Raise (FileExistsError p))
    | _ => (set_fs w (<[p := Dir]> (fs w)) (opened w) (trace w), Return tt)
    end.
Proof.
  intros Ht Hh. unfold makedirs_exist_ok.
  rewrite makedirs_go_here by done.
  destruct (fs w !! p) as [[|c]|] eqn:Hp; [| by destruct w | done].
  by rewrite insert_id.
Qed.

(** ** The whole procedure *)

Lemma log_all_nil w : log_all [] w = w.
Proof. destruct w. unfold log_all. simpl. by rewrite app_nil_r. Qed.

Lemma load_model_run args w :
  load_model args w = (log_all (load_log args) w, Return (loaded args)).
Proof.
  unfold load_model, load_log, loaded.
  destruct (endswith (model args) ".nemo"); [done|].
  destruct (endswith (model args) ".ckpt"); [done|].
  by rewrite log_all_nil.
Qed.

Section procedure.
Context `{NeMo}.
Variables (rank world_size : nat) (args : Namespace).

Local Abbreviation of_ := (originals_file_name args rank).
Local Abbreviation tf := (translations_file_name args rank).
Local Abbreviation dir := (rank_dir args rank).

(** [translate], phase by phase. *)
Lemma translate_run w :
  translate rank world_size args w =
    let w1 := log_all (load_log args) (setup_world rank world_size args w) in
    match loaded args with
    | None => (w1, Raise (UnboundLocalError "model"))
    | Some m0 =>
        match makedirs_exist_ok dir w1 with
        | (w2, Raise e) => (w2, Raise e)
        | (w2, Return _) =>
            match with_block rank world_size args (ready_model rank args m0) w2 with
            | (w3, Return n) => (exec cleanup w3, Return n)
            | (w3, Raise e) => (w3, Raise e)
            end
        end
    end.
Proof.
  unfold translate. rewrite bind_run.
  change (setup rank world_size args w) with
    (exec (setup rank world_size args) w, Return tt).
  cbv beta iota. rewrite bind_run.
  change (set_grad_enabled false (exec (setup rank world_size args) w)) with
    (setup_world rank world_size args w, Return tt).
  cbv beta iota. rewrite bind_run, load_model_run. cbv beta iota zeta.
  destruct (loaded args) as [m0|]; [|done].
  rewrite bind_run. cbn [use].
  unfold mret at 1, M_ret at 1. cbv beta iota. rewrite bind_run.
  destruct (makedirs_exist_ok dir _) as [w2 [[]|e]]; [|done].
  rewrite bind_run. fold (ready_model rank args m0).
  fold (loader rank world_size args (ready_model rank args m0)).
  fold (with_block rank world_size args (ready_model rank args m0)).
  destruct (with_block rank world_size args (ready_model rank args m0) w2)
    as [w3 [n|e]]; [|done].
  by rewrite bind_run.
Qed.

Lemma makedirs_ok w w2 :
  makedirs_exist_ok dir w = (w2, Return tt) →
  fs w2 !! dir = Some Dir ∧
  (∀ q, fs w2 !! q = fs w !! q ∨ (fs w !! q = None ∧ fs w2 !! q = Some Dir)) ∧
  fs w2 !! of_ = fs w !! of_ ∧ fs w2 !! tf = fs w !! tf ∧
  opened w2 = opened w ∧ trace w2 = trace w ∧ log w2 = log w ∧
  process_group w2 = process_group w.
Proof.
  intros Hmk.
  destruct (makedirs_changes dir w) as (Hmono & Hfar & _).
  destruct (makedirs_frame dir w) as (Ho & Ht & Hl & _ & Hp & _).
  destruct (rank_dir_tail args rank) as [Htail Hdot].
  rewrite Hmk in *. cbn [fst] in *. split_and!; try done.
  - rewrite makedirs_exist_ok_run in Hmk.
    destruct (makedirs_go _ dir (fs w)) as [f [[]|e]] eqn:Hgo; [|done].
    injection Hmk as <-. cbn [fst fs set_fs].
    by apply (makedirs_go_made _ _ _ _ Htail Hdot Hgo).
  - apply Hfar; [apply originals_ne_dir | apply rank_dir_head_shorter_of].
  - apply Hfar; [apply translations_ne_dir | apply rank_dir_head_shorter_tf].
Qed.

Lemma makedirs_returns w :
  (os_path_split dir).1 = "" ∨ os_path_isdir (fs w) (os_path_split dir).1 = true →
  (∀ c, fs w !! dir ≠ Some (File c)) →
  makedirs_exist_ok dir w =
    (set_fs w (<[dir := Dir]> (fs w)) (opened w) (trace w), Return tt).
Proof.
  intros Hparent Hp. destruct (rank_dir_tail args rank) as [Htail _].
  rewrite makedirs_here by done.
  destruct (fs w !! dir) as [[|c]|] eqn:Heq; [done | | done].
  by destruct (Hp c).
Qed.

(** What a run that completes has done. *)
Lemma translate_completed w w' n :
  translate rank world_size args w = (w', Return n) →
  ∃ m0 rs,
    loaded args = Some m0 ∧
    loop_outs rank args (ready_model rank args m0) 0
      (loader rank world_size args (ready_model rank args m0)) = Return rs ∧
    n = total_sentences rs ∧
    fs w' !! dir = Some Dir ∧
    fs w' !! of_ = Some (File (concat (map original_lines rs))) ∧
    fs w' !! tf = Some (File (concat (map translation_lines rs))) ∧
    (∀ q, q ≠ of_ → q ≠ tf →
          fs w' !! q = fs w !! q ∨ (fs w !! q = None ∧ fs w' !! q = Some Dir)) ∧
    opened w' =
      filter (λ q, q ≠ of_) (filter (λ q, q ≠ tf) (tf :: of_ :: opened w)) ∧
    trace w' =
      trace w ++ [EvOpen of_; EvOpen tf] ++ loop_trace of_ tf rs ++
      [EvClose tf; EvClose of_] ∧
    log w' = log w ++ load_log args ++ progress_log rank 0 0 rs ∧
    process_group w' = None.
Proof.
  rewrite translate_run. cbv zeta.
  destruct (loaded args) as [m0|]; [|done].
  set (w1 := log_all (load_log args) (setup_world rank world_size args w)).
  set (m := ready_model rank args m0).
  destruct (makedirs_exist_ok dir w1) as [w2 [[]|e]] eqn:Hmk; [|done].
  apply makedirs_ok in Hmk
    as (Hdir & Hmono & _ & _ & Hopened & Htrace & Hlog & _).
  pose proof (originals_ne_translations args rank) as Hne.
  pose proof (originals_ne_dir args rank) as Hofd.
  pose proof (translations_ne_dir args rank) as Htfd.
  unfold with_block.
  destruct (decide (fs w2 !! of_ = Some Dir)) as [Hof|Hof].
  { by rewrite with_files_raise_of. }
  destruct (decide (fs w2 !! tf = Some Dir)) as [Htf|Htf].
  { match goal with |- context [with_open_w of_ ?b w2] =>
      pose proof (with_files_raise_tf of_ tf
        (for_enumerate 0 (loader rank world_size args m) 0
           (loop_body rank args m (assign_detokenizers args) of_ tf)) w2 Hof)
        as Hraise end.
    rewrite fs_open_w, lookup_insert_ne in Hraise by done.
    specialize (Hraise Htf).
    destruct (with_open_w _ _ w2) as [w3 [n'|e]]; [done | done]. }
  rewrite with_files_run by done. cbv beta iota.
  pose proof (opened_opened_world of_ tf w2 Hne Hof Htf) as Hop.
  assert (of_ ∈ opened (opened_world of_ tf w2)) as Hofin
    by (rewrite Hop; set_solver).
  assert (tf ∈ opened (opened_world of_ tf w2)) as Htfin
    by (rewrite Hop; set_solver).
  destruct (loop_outs rank args m 0 (loader rank world_size args m))
    as [rs|e] eqn:Hrs.
  2:{ pose proof (loop_raise rank of_ tf args m _ e 0 0 _ Hofin Htfin Hrs) as Hr.
      destruct (for_enumerate _ _ _ _ _) as [w3 r]. simpl in *. by subst r. }
  rewrite (loop_run rank of_ tf args m _ rs) by done.
  cbn [fst snd]. intros [= <- <-].
  exists m0, rs. split_and!; try done.
  - change (fs (loop_world rank of_ tf 0 0 rs (opened_world of_ tf w2)) !! dir
            = Some Dir).
    rewrite fs_loop_world_other by done.
    rewrite fs_opened_world, !lookup_insert_ne by done. done.
  - change (fs (loop_world rank of_ tf 0 0 rs (opened_world of_ tf w2)) !! of_
            = Some (File (concat (map original_lines rs)))).
    rewrite (fs_loop_world_file rank of_ tf rs 0 0 _ of_ Hofin).
    + by rewrite content_loop_world_of, content_opened_world_of.
    + rewrite fs_opened_world, lookup_insert_ne, lookup_insert_eq by done.
      by eexists.
  - change (fs (loop_world rank of_ tf 0 0 rs (opened_world of_ tf w2)) !! tf
            = Some (File (concat (map translation_lines rs)))).
    rewrite (fs_loop_world_file rank of_ tf rs 0 0 _ tf Htfin).
    + by rewrite content_loop_world_tf, content_opened_world_tf.
    + rewrite fs_opened_world, lookup_insert_eq by done. by eexists.
  - intros q Hq2 Hq3.
    change (fs (loop_world rank of_ tf 0 0 rs (opened_world of_ tf w2)) !! q
              = fs w !! q ∨
            (fs w !! q = None ∧
             fs (loop_world rank of_ tf 0 0 rs (opened_world of_ tf w2)) !! q
               = Some Dir)).
    rewrite fs_loop_world_other by done.
    rewrite fs_opened_world, !lookup_insert_ne by done.
    exact (Hmono q).
  - change (filter (λ q, q ≠ of_) (filter (λ q, q ≠ tf)
              (opened (loop_world rank of_ tf 0 0 rs (opened_world of_ tf w2))))
            = filter (λ q, q ≠ of_) (filter (λ q, q ≠ tf) (tf :: of_ :: opened w))).
    by rewrite opened_loop_world, Hop, Hopened.
  - change (trace (closed_world of_ tf
              (loop_world rank of_ tf 0 0 rs (opened_world of_ tf w2))) = 
            trace w ++ [EvOpen of_; EvOpen tf] ++ loop_trace of_ tf rs ++
              [EvClose tf; EvClose of_]).
    rewrite trace_closed_world, trace_loop_world by done.
    rewrite trace_opened_world, Htrace by done.
    by rewrite <- !app_assoc.
  - change (log (loop_world rank of_ tf 0 0 rs (opened_world of_ tf w2))
            = log w ++ load_log args ++ progress_log rank 0 0 rs).
    rewrite log_loop_world, log_opened_world, Hlog.
    subst w1. cbn. by rewrite <- app_assoc.
Qed.

(** A run completes when the model path has a known extension, the parent of
    the rank directory is there, none of the three paths is taken by a node
    of the wrong kind, and every batch is as expected. *)
Lemma translate_completes w m0 rs :
  loaded args = Some m0 →
  (os_path_split dir).1 = "" ∨ os_path_isdir (fs w) (os_path_split dir).1 = true →
  (∀ c, fs w !! dir ≠ Some (File c)) →
  fs w !! of_ ≠ Some Dir → fs w !! tf ≠ Some Dir →
  loop_outs rank args (ready_model rank args m0) 0
    (loader rank world_size args (ready_model rank args m0)) = Return rs →
  ∃ w', translate rank world_size args w = (w', Return (total_sentences rs)).
Proof.
  intros Hm0 Hparent Hdir Hof Htf Hrs. rewrite translate_run, Hm0. cbv zeta.
  set (w1 := log_all (load_log args) (setup_world rank world_size args w)).
  pose proof (makedirs_returns w1 Hparent Hdir) as Hmk. rewrite Hmk.
  clear Hparent Hdir.
  apply makedirs_ok in Hmk as (_ & _ & Hof2 & Htf2 & _).
  pose proof (originals_ne_translations args rank) as Hne.
  unfold with_block. rewrite with_files_run by (by rewrite ?Hof2, ?Htf2).
  match goal with |- context [opened_world of_ tf ?w2] =>
    pose proof (opened_opened_world of_ tf w2 Hne) as Hop end.
  rewrite Hof2, Htf2 in Hop. specialize (Hop Hof Htf).
  rewrite (loop_run rank of_ tf args _ _ rs);
    [by eexists | rewrite Hop; set_solver | rewrite Hop; set_solver | done].
Qed.
End procedure.

(** * The claims *)

(** ** Loading the model (lines 73-79) *)

(** C1. A path ending in ".nemo" takes the restore branch and a path ending
    in ".ckpt" takes the checkpoint branch, each after its log line. For any
    other path the loading step ends normally with [model] unassigned and
    nothing logged; the procedure then fails with [UnboundLocalError] for
    [model] where [model] is first read, at the call of
    [replace_beam_with_sampling], the state being the one left by [setup]. *)
Theorem model_loading_by_extension `{NeMo} (rank world_size : nat)
    (args : Namespace) (w : world) :
  (endswith (model args) ".nemo" = true →
     load_model args w =
       (log_all ["Attempting to initialize from .nemo file"] w,
        Return (Some (restore_from (model args))))) ∧
  (endswith (model args) ".ckpt" = true →
     load_model args w =
       (log_all ["Attempting to initialize from .ckpt file"] w,
        Return (Some (load_from_checkpoint (model args))))) ∧
  (endswith (model args) ".nemo" = false →
   endswith (model args) ".ckpt" = false →
     load_model args w = (w, Return None) ∧
     translate rank world_size args w =
       (setup_world rank world_size args w, Raise (UnboundLocalError "model"))).
Proof.
  split_and!.
  - intros Hnemo. unfold load_model. by rewrite Hnemo.
  - intros Hckpt. unfold load_model.
    rewrite (endswith_exclusive _ ".ckpt" ".nemo") by done.
    by rewrite Hckpt.
  - intros Hnemo Hckpt. split.
    + unfold load_model. by rewrite Hnemo, Hckpt.
    + rewrite translate_run. unfold loaded, load_log.
      rewrite Hnemo, Hckpt. cbv zeta. by rewrite log_all_nil.
Qed.

Lemma model_loading_by_extension_witness :
  load_model (Toy.args "m.nemo" "en" "de" false) Toy.empty_world =
    (log_all ["Attempting to initialize from .nemo file"] Toy.empty_world,
     Return (Some (restore_from "m.nemo"))) ∧
  load_model (Toy.args "m.ckpt" "en" "de" false) Toy.empty_world =
    (log_all ["Attempting to initialize from .ckpt file"] Toy.empty_world,
     Return (Some (load_from_checkpoint "m.ckpt"))) ∧
  translate 0 1 (Toy.args "m.bin" "en" "de" false) Toy.empty_world =
    (setup_world 0 1 (Toy.args "m.bin" "en" "de" false) Toy.empty_world,
     Raise (UnboundLocalError "model")).
Proof.
  split_and!.
  - apply (model_loading_by_extension 0 1 (Toy.args "m.nemo" "en" "de" false)).
    reflexivity.
  - apply (model_loading_by_extension 0 1 (Toy.args "m.ckpt" "en" "de" false)).
    reflexivity.
  - apply (model_loading_by_extension 0 1 (Toy.args "m.bin" "en" "de" false));
      reflexivity.
Defined.

(** ** Choosing the detokenizers (lines 111-122) *)

(** C7. For every pair of language codes the target detokenizer is the
    Chinese one when the target code is [zh] and Moses for that code
    otherwise, and likewise for the source; each side gets exactly one
    detokenizer, so neither local is left unassigned. *)
Theorem detokenizer_selection (args : Namespace) :
  target_detokenizer (assign_detokenizers args) =
    Some (if String.eqb (target_lang args) "zh"
          then PanguJiebaDetokenizer
          else MosesDetokenizer (target_lang args)) ∧
  source_detokenizer (assign_detokenizers args) =
    Some (if String.eqb (source_lang args) "zh"
          then PanguJiebaDetokenizer
          else MosesDetokenizer (source_lang args)) ∧
  (exists! d, target_detokenizer (assign_detokenizers args) = Some d) ∧
  (exists! d, source_detokenizer (assign_detokenizers args) = Some d).
Proof.
  unfold assign_detokenizers. cbn [target_detokenizer source_detokenizer].
  rewrite !select_detokenizer_final. unfold final_detokenizer.
  split_and!; [done | done | |]; eexists; (split; [done | by intros d [= <-]]).
Qed.

(** ** Preparing and unpacking a batch (lines 126-133) *)

Lemma map_fmap {A B} (f : A → B) (l : list A) : map f l = f <$> l.
Proof. induction l as [|a l IH]; [done | simpl; by rewrite IH]. Qed.

Lemma shape_prepared_collated (rank : nat) (t0 : tensor) :
  ndim (collate1 t0) = 3 →
  shape (prepared rank (collate1 t0)) = tail (shape (collate1 t0)).
Proof. intros Hd. unfold prepared. by rewrite Hd. Qed.

Lemma shape_prepared_other (rank : nat) (t : tensor) :
  ndim t ≠ 3 → shape (prepared rank t) = shape t.
Proof.
  intros Hd. unfold prepared.
  by destruct (Nat.eqb_spec (ndim t) 3).
Qed.

(** C9. The loop over a loaded batch never raises and rewrites every tensor
    in place: a tensor of exactly three dimensions is squeezed at dimension
    0, which for a batch made by the loader (batch size one) removes its
    leading dimension, and is then moved to the rank's device; a tensor of any
    other number of dimensions is moved with its shape unchanged. The values
    a tensor holds are not touched. *)
Theorem batch_tensors_prepared `{NeMo} (rank : nat) (d : dataset)
    (batch : list tensor) :
  batch ∈ DataLoader1 d →
  ∃ batch',
    prepare rank batch = Return batch' ∧
    length batch' = length batch ∧
    ∀ i t, batch !! i = Some t →
      ∃ t', batch' !! i = Some t' ∧
        t' = to (Cuda rank) (if (ndim t =? 3)%nat then squeeze0 t else t) ∧
        dev t' = Cuda rank ∧ data t' = data t ∧
        (ndim t = 3 → shape t' = tail (shape t) ∧ ndim t' = 2) ∧
        (ndim t ≠ 3 → shape t' = shape t).
Proof.
  unfold DataLoader1. rewrite map_fmap.
  intros (sample & -> & _)%list_elem_of_fmap.
  exists (map (prepared rank) (map collate1 sample)). split_and!.
  - apply prepare_map.
  - by rewrite length_map.
  - intros i t Ht. exists (prepared rank t). split_and!.
    + rewrite (map_fmap (prepared rank)), list_lookup_fmap. by rewrite Ht.
    + done.
    + done.
    + unfold prepared. by destruct (ndim t =? 3)%nat, t as [[|[|[|?]] ?] ? ?].
    + rewrite map_fmap, list_lookup_fmap in Ht.
      destruct (sample !! i) as [t0|]; [|done]. injection Ht as <-.
      intros Hd. split; [by apply shape_prepared_collated|].
      unfold ndim in *. rewrite shape_prepared_collated by done.
      simpl in *. lia.
    + apply shape_prepared_other.
Qed.

Lemma batch_tensors_prepared_witness :
  ∃ batch',
    prepare 0 (map collate1 [Toy.ids; Toy.mask]) = Return batch' ∧
    length batch' = 2 ∧
    ∀ i t, map collate1 [Toy.ids; Toy.mask] !! i = Some t →
      ∃ t', batch' !! i = Some t' ∧
        t' = to (Cuda 0) (if (ndim t =? 3)%nat then squeeze0 t else t) ∧
        dev t' = Cuda 0 ∧ data t' = data t ∧
        (ndim t = 3 → shape t' = tail (shape t) ∧ ndim t' = 2) ∧
        (ndim t ≠ 3 → shape t' = shape t).
Proof.
  apply (batch_tensors_prepared (H:=Toy.toy) 0
           (TarredOneSideTranslationDataset "corpus.tar" "metadata.json"
              (encoder_tokenizer (NemoFile "m.nemo")) 100 "scatter" 1 0)).
  vm_compute. left.
Defined.

(** Unpacking succeeds exactly on a batch of the expected length, and gives
    its first two tensors. *)
Lemma unpack_one_side (batch : list tensor) (x y : tensor) :
  unpack false batch = Return (x, y) ↔ batch = [x; y].
Proof.
  unfold unpack. split; [|by intros ->].
  destruct batch as [|a [|b [|c l]]]; naive_solver.
Qed.

Lemma unpack_two_side (batch : list tensor) (x y : tensor) :
  unpack true batch = Return (x, y) ↔ ∃ c d e, batch = [x; y; c; d; e].
Proof.
  unfold unpack. split; [|by intros (c & d & e & ->)].
  destruct batch as [|a [|b [|c [|d [|e [|f l]]]]]]; naive_solver.
Qed.

(** A loop that completes has unpacked every batch. *)
Lemma loop_outs_unpacks `{NeMo} rank args m bs i rs :
  loop_outs rank args m i bs = Return rs →
  ∀ batch, batch ∈ bs →
    ∃ x y, unpack (twoside args) (map (prepared rank) batch) = Return (x, y).
Proof.
  revert i rs. induction bs as [|b bs IH]; intros i rs Hrs batch Hin.
  - by apply elem_of_nil in Hin.
  - cbn [loop_outs] in Hrs.
    destruct (batch_out rank args m i b) as [r|e] eqn:Hb; [|done].
    destruct (loop_outs rank args m (S i) bs) as [rs'|e] eqn:Hbs; [|done].
    apply elem_of_cons in Hin as [->|Hin]; [|by eapply IH].
    unfold batch_out in Hb.
    destruct (unpack _ _) as [[x y]|e]; [by eexists _, _ | done].
Qed.

(** C5. Without [--twoside] the one-sided dataset is built, and a turn of the
    loop unpacks its batch into exactly two tensors: on a batch of two it goes
    on with them as [src_ids] and [src_mask], on a batch of any other length
    it raises the [ValueError] of the tuple assignment and changes nothing.
    With [--twoside] the two-sided dataset is built, and a turn unpacks its
    batch into exactly five tensors and goes on with the first two only: the
    rest of the turn does not mention the last three. In both cases a run
    that completes has iterated over the batches of that dataset, each of
    the expected length. *)
Theorem dataset_and_unpacking_by_twoside `{NeMo} (rank world_size : nat)
    (args : Namespace) (m : MTEncDecModel) :
  (twoside args = false →
     make_dataset rank world_size args m =
       TarredOneSideTranslationDataset (text2translate args) (metadata_path args)
         (encoder_tokenizer (origin m)) 100 "scatter" world_size rank ∧
     (∀ l of_ tf batch_idx batch num_translated_sentences w,
        loop_body rank args m l of_ tf batch_idx batch
          num_translated_sentences w =
          match batch with
          | [src_ids; src_mask] =>
              loop_body_unpacked rank args m l of_ tf batch_idx
                (prepared rank src_ids) (prepared rank src_mask)
                num_translated_sentences w
          | _ => (w, Raise (unpack_error 2 (length batch)))
          end) ∧
     (∀ w w' n,
        translate rank world_size args w = (w', Return n) →
        ∃ m0,
          loaded args = Some m0 ∧
          ∀ batch,
            batch ∈ DataLoader1
              (TarredOneSideTranslationDataset (text2translate args)
                 (metadata_path args)
                 (encoder_tokenizer (origin (ready_model rank args m0)))
                 100 "scatter" world_size rank) →
            length batch = 2)) ∧
  (twoside args = true →
     make_dataset rank world_size args m =
       TarredTranslationDataset (text2translate args) (metadata_path args)
         (encoder_tokenizer (origin m)) (decoder_tokenizer (origin m))
         100 "scatter" world_size rank (reverse_lang_direction args) ∧
     (∀ l of_ tf batch_idx batch num_translated_sentences w,
        loop_body rank args m l of_ tf batch_idx batch
          num_translated_sentences w =
          match batch with
          | [src_ids; src_mask; _; _; _] =>
              loop_body_unpacked rank args m l of_ tf batch_idx
                (prepared rank src_ids) (prepared rank src_mask)
                num_translated_sentences w
          | _ => (w, Raise (unpack_error 5 (length batch)))
          end) ∧
     (∀ w w' n,
        translate rank world_size args w = (w', Return n) →
        ∃ m0,
          loaded args = Some m0 ∧
          ∀ batch,
            batch ∈ DataLoader1
              (TarredTranslationDataset (text2translate args)
                 (metadata_path args)
                 (encoder_tokenizer (origin (ready_model rank args m0)))
                 (decoder_tokenizer (origin (ready_model rank args m0)))
                 100 "scatter" world_size rank (reverse_lang_direction args)) →
            length batch = 5)).
Proof.
  split; intros Htwo; (split; [unfold make_dataset; by rewrite Htwo|]); split.
  - intros. unfold loop_body. rewrite prepare_map, bind_run, Htwo.
    unfold lift at 1. cbv beta iota. rewrite bind_run. unfold lift at 1.
    destruct batch as [|a [|b [|c batch]]]; cbn [map unpack length];
      rewrite ?length_map; reflexivity.
  - intros w w' n Hrun.
    destruct (translate_completed _ _ _ _ _ _ Hrun)
      as (m0 & rs & Hm0 & Hrs & _).
    exists m0. split; [done|]. intros batch Hin.
    unfold loader, make_dataset in Hrs. rewrite Htwo in Hrs.
    destruct (loop_outs_unpacks _ _ _ _ _ _ Hrs batch Hin) as (x & y & Hun).
    rewrite Htwo in Hun. apply unpack_one_side in Hun.
    apply (f_equal length) in Hun. by rewrite length_map in Hun.
  - intros. unfold loop_body. rewrite prepare_map, bind_run, Htwo.
    unfold lift at 1. cbv beta iota. rewrite bind_run. unfold lift at 1.
    destruct batch as [|a [|b [|c [|d [|e [|f batch]]]]]];
      cbn [map unpack length]; rewrite ?length_map; reflexivity.
  - intros w w' n Hrun.
    destruct (translate_completed _ _ _ _ _ _ Hrun)
      as (m0 & rs & Hm0 & Hrs & _).
    exists m0. split; [done|]. intros batch Hin.
    unfold loader, make_dataset in Hrs. rewrite Htwo in Hrs.
    destruct (loop_outs_unpacks _ _ _ _ _ _ Hrs batch Hin) as (x & y & Hun).
    rewrite Htwo in Hun. apply unpack_two_side in Hun as (c & d & e & Hun).
    apply (f_equal length) in Hun. by rewrite length_map in Hun.
Qed.

Lemma dataset_and_unpacking_by_twoside_witness :
  (make_dataset 0 1 (Toy.args "m.nemo" "en" "de" false) (restore_from "m.nemo") =
     TarredOneSideTranslationDataset "corpus.tar" "metadata.json"
       (encoder_tokenizer (NemoFile "m.nemo")) 100 "scatter" 1 0 ∧
   loop_body 0 (Toy.args "m.nemo" "en" "de" false) (restore_from "m.nemo")
     (assign_detokenizers (Toy.args "m.nemo" "en" "de" false)) "o" "t"
     0 [Toy.ids] 0 Toy.empty_world =
     (Toy.empty_world,
      Raise (ValueError "not enough values to unpack (expected 2, got 1)")) ∧
   ∀ batch,
     batch ∈ DataLoader1
       (TarredOneSideTranslationDataset "corpus.tar" "metadata.json"
          (encoder_tokenizer (NemoFile "m.nemo")) 100 "scatter" 1 0) →
     length batch = 2) ∧
  (make_dataset 0 1 (Toy.args "m.nemo" "en" "de" true) (restore_from "m.nemo") =
     TarredTranslationDataset "corpus.tar" "metadata.json"
       (encoder_tokenizer (NemoFile "m.nemo")) (decoder_tokenizer (NemoFile "m.nemo"))
       100 "scatter" 1 0 false ∧
   loop_body 0 (Toy.args "m.nemo" "en" "de" true) (restore_from "m.nemo")
     (assign_detokenizers (Toy.args "m.nemo" "en" "de" true)) "o" "t"
     0 [Toy.ids; Toy.mask; Toy.ids; Toy.mask; Toy.ids; Toy.mask] 0
     Toy.empty_world =
     (Toy.empty_world,
      Raise (ValueError "too many values to unpack (expected 5)")) ∧
   ∀ batch,
     batch ∈ DataLoader1
       (TarredTranslationDataset "corpus.tar" "metadata.json"
          (encoder_tokenizer (NemoFile "m.nemo"))
          (decoder_tokenizer (NemoFile "m.nemo")) 100 "scatter" 1 0 false) →
     length batch = 5).
Proof.
  destruct (proj1 (dataset_and_unpacking_by_twoside (H:=Toy.toy) 0 1
                     (Toy.args "m.nemo" "en" "de" false) (restore_from "m.nemo"))
              eq_refl) as (Hd1 & Hb1 & Hr1).
  destruct (proj2 (dataset_and_unpacking_by_twoside (H:=Toy.toy) 0 1
                     (Toy.args "m.nemo" "en" "de" true) (restore_from "m.nemo"))
              eq_refl) as (Hd2 & Hb2 & Hr2).
  split; (split; [|split]).
  - exact Hd1.
  - rewrite Hb1. reflexivity.
  - destruct (Hr1 Toy.empty_world
                (translate 0 1 (Toy.args "m.nemo" "en" "de" false)
                   Toy.empty_world).1 4) as (m0 & Hm0 & Hlen).
    { vm_compute. reflexivity. }
    injection Hm0 as <-. exact Hlen.
  - exact Hd2.
  - rewrite Hb2. reflexivity.
  - destruct (Hr2 Toy.empty_world
                (translate 0 1 (Toy.args "m.nemo" "en" "de" true)
                   Toy.empty_world).1 2) as (m0 & Hm0 & Hlen).
    { vm_compute. reflexivity. }
    injection Hm0 as <-. exact Hlen.
Defined.

(** ** The sub-word detokenizer (lines 116-117, 144-145, 150-151) *)

Lemma unpack_exn two (batch : list tensor) e :
  unpack two batch = Raise e → ∃ msg, e = ValueError msg.
Proof.
  unfold unpack. destruct two.
  - destruct batch as [|a [|b [|c [|d [|x [|f l]]]]]]; naive_solver.
  - destruct batch as [|a [|b [|c l]]]; naive_solver.
Qed.

Lemma tensor_len_exn (t : tensor) e :
  tensor_len t = Raise e → ∃ msg, e = TypeError msg.
Proof. unfold tensor_len. destruct (shape t); naive_solver. Qed.

Lemma rows_exn (t : tensor) e : rows t = Raise e → ∃ msg, e = TypeError msg.
Proof. unfold rows. destruct (shape t); naive_solver. Qed.

Lemma never_of_run {A} e (m : M A) (f : world → A) :
  (∀ w, m w = (w, Return (f w))) → never e m.
Proof. intros Hm w. by rewrite Hm. Qed.

Section sp.
Context `{NeMo}.

Lemma loop_body_never_sp rank args m of_ tf i batch num :
  never (UnboundLocalError "sp_detokenizer")
    (loop_body rank args m (assign_detokenizers args) of_ tf i batch num).
Proof.
  unfold loop_body, loop_body_unpacked.
  apply never_bind; [apply never_lift; by rewrite prepare_map|].
  intros b. apply never_bind.
  { apply never_lift. by intros [msg ?]%unpack_exn. }
  intros [src_ids src_mask]. apply never_bind.
  { destruct (i mod 100 =? 0)%nat; [by intros w | apply never_mret]. }
  intros _. apply never_bind.
  { apply never_lift. by intros [msg ?]%tensor_len_exn. }
  intros n. apply never_bind.
  { apply never_lift. by intros [msg ?]%rows_exn. }
  intros ts. apply never_bind.
  { apply never_for_each. intros t. apply never_bind.
    - apply (never_of_run _ _ (λ _, translation_text args m t)).
      intros w. apply translation_line_run.
    - intros s. by apply never_write. }
  intros _. apply never_bind.
  { apply never_lift. by intros [msg ?]%rows_exn. }
  intros os. apply never_bind; [|intros _; apply never_mret].
  apply never_for_each. intros o. apply never_bind.
  - apply (never_of_run _ _ (λ _, original_text args m o)).
    intros w. apply original_line_run.
  - intros s. by apply never_write.
Qed.

(** Whatever the arguments and the state, a run does not end with the
    sub-word detokenizer found unassigned. *)
Lemma translate_never_sp rank world_size args w :
  (translate rank world_size args w).2 ≠
    Raise (UnboundLocalError "sp_detokenizer").
Proof.
  rewrite translate_run. cbv zeta.
  destruct (loaded args) as [m0|]; [|done].
  set (w1 := log_all _ _).
  destruct (makedirs_exist_ok (rank_dir args rank) w1) as [w2 [[]|e]] eqn:Hmk.
  2:{ destruct (makedirs_changes (rank_dir args rank) w1) as (_ & _ & Hexn).
      rewrite Hmk in Hexn. cbn [fst snd]. intros [= ->].
      by specialize (Hexn _ eq_refl). }
  assert (never (UnboundLocalError "sp_detokenizer")
            (with_block rank world_size args (ready_model rank args m0)))
    as Hnever.
  { unfold with_block.
    apply never_with_open_w; [done|]. apply never_with_open_w; [done|].
    apply never_for_enumerate. intros. apply loop_body_never_sp. }
  specialize (Hnever w2).
  destruct (with_block _ _ _ _ w2) as [w3 [n|e]]; [done|].
  simpl in *. congruence.
Qed.
End sp.

(** C10. When the target language code is not empty, the guard of line 116
    holds whatever the source language code is, so the sub-word detokenizer is
    assigned; the two [ja] branches of the write loop then produce their line
    without raising, and no run ends with that name found unassigned. *)
Theorem sp_detokenizer_always_bound `{NeMo} (args : Namespace) :
  target_lang args ≠ "" →
  sp_guard args = true ∧
  sp_detokenizer (assign_detokenizers args) = Some SentencePieceDetokenizer ∧
  (∀ m t w, ∃ line,
     translation_line args m (assign_detokenizers args) t w = (w, Return line)) ∧
  (∀ m o w, ∃ line,
     original_line args m (assign_detokenizers args) o w = (w, Return line)) ∧
  (∀ rank world_size w,
     (translate rank world_size args w).2 ≠
       Raise (UnboundLocalError "sp_detokenizer")).
Proof.
  intros Htarget%truthy_ne_empty.
  assert (sp_guard args = true) as Hguard by (unfold sp_guard; by rewrite Htarget).
  split_and!.
  - done.
  - unfold assign_detokenizers, select_sp_detokenizer. simpl. by rewrite Hguard.
  - intros m t w. eexists. apply translation_line_run.
  - intros m o w. eexists. apply original_line_run.
  - intros. apply translate_never_sp.
Qed.

Lemma sp_detokenizer_always_bound_witness :
  sp_guard (Toy.args "m.nemo" "en" "ja" false) = true ∧
  sp_detokenizer (assign_detokenizers (Toy.args "m.nemo" "en" "ja" false)) =
    Some SentencePieceDetokenizer ∧
  (∀ m t w, ∃ line,
     translation_line (Toy.args "m.nemo" "en" "ja" false) m
       (assign_detokenizers (Toy.args "m.nemo" "en" "ja" false)) t w =
       (w, Return line)) ∧
  (∀ m o w, ∃ line,
     original_line (Toy.args "m.nemo" "en" "ja" false) m
       (assign_detokenizers (Toy.args "m.nemo" "en" "ja" false)) o w =
       (w, Return line)) ∧
  (∀ rank world_size w,
     (translate rank world_size (Toy.args "m.nemo" "en" "ja" false) w).2 ≠
       Raise (UnboundLocalError "sp_detokenizer")).
Proof.
  apply (sp_detokenizer_always_bound (H:=Toy.toy)
           (Toy.args "m.nemo" "en" "ja" false)).
  simpl. discriminate.
Defined.

(** C2 (the code departs from it). On the translation line the sub-word pass
    runs exactly when the target language is [ja]. On the source line the pass
    is keyed on the target language as well, not on the source language: with
    source [ja] and target [en] the source line is written without the pass
    ("1 2", where the pass would give "12"), and with source [en] and target
    [ja] the source line gets the pass. *)
Theorem source_line_pass_keyed_on_target_lang :
  (∀ (N : NeMo) args m t w,
     translation_line args m (assign_detokenizers args) t w =
       (w, Return
          (detokenize (final_detokenizer (target_lang args))
             (split
                (if String.eqb (target_lang args) "ja"
                 then detokenize SentencePieceDetokenizer
                        (split (ids_to_text (decoder_tokenizer (origin m)) t))
                 else ids_to_text (decoder_tokenizer (origin m)) t))))) ∧
  (∀ (N : NeMo) args m o w,
     original_line args m (assign_detokenizers args) o w =
       (w, Return
          (detokenize (final_detokenizer (source_lang args))
             (split
                (if String.eqb (target_lang args) "ja"
                 then detokenize SentencePieceDetokenizer
                        (split (ids_to_text (encoder_tokenizer (origin m)) o))
                 else ids_to_text (encoder_tokenizer (origin m)) o))))) ∧
  (let args := Toy.args "m.nemo" "ja" "en" false in
   let o := Tensor [2] [1; 2]%Z (Cuda 0) in
   original_line args (restore_from "m.nemo") (assign_detokenizers args) o
     Toy.empty_world = (Toy.empty_world, Return "1 2") ∧
   detokenize (MosesDetokenizer "ja")
     (split (detokenize SentencePieceDetokenizer
               (split (ids_to_text (encoder_tokenizer (NemoFile "m.nemo")) o))))
     = "12") ∧
  (let args := Toy.args "m.nemo" "en" "ja" false in
   let o := Tensor [2] [1; 2]%Z (Cuda 0) in
   original_line args (restore_from "m.nemo") (assign_detokenizers args) o
     Toy.empty_world = (Toy.empty_world, Return "12")).
Proof.
  split_and!.
  - intros. apply translation_line_run.
  - intros. apply original_line_run.
  - split; reflexivity.
  - reflexivity.
Qed.

(** ** Counting the lines (lines 139-153) *)

Section counting.
Context `{NeMo}.

Lemma batch_out_counts rank args m i batch r :
  one_output_per_input →
  batch_out rank args m i batch = Return r →
  length (translation_lines r) = sentences r ∧
  length (original_lines r) = sentences r.
Proof.
  intros Hfwd. unfold batch_out.
  destruct (unpack _ _) as [[src_ids src_mask]|e]; [|done].
  destruct (tensor_len src_ids) as [k|e] eqn:Hlen; [|done].
  destruct (rows (to Cpu _)) as [ts|e] eqn:Hts; [|done].
  destruct (rows src_ids) as [os|e] eqn:Hos; [|done].
  intros [= <-]. cbn [translation_lines original_lines sentences].
  rewrite !length_map. split.
  - apply (rows_length _ _ _ Hts). by apply (Hfwd m i src_ids src_mask).
  - by apply (rows_length _ _ _ Hos).
Qed.

Lemma batch_out_terminated rank args m i batch r :
  batch_out rank args m i batch = Return r →
  Forall (λ line, endswith line nl = true) (translation_lines r) ∧
  Forall (λ line, endswith line nl = true) (original_lines r).
Proof.
  unfold batch_out.
  destruct (unpack _ _) as [[src_ids src_mask]|e]; [|done].
  destruct (tensor_len src_ids) as [k|e]; [|done].
  destruct (rows (to Cpu _)) as [ts|e]; [|done].
  destruct (rows src_ids) as [os|e]; [|done].
  intros [= <-]. cbn [translation_lines original_lines].
  split; rewrite map_fmap; apply Forall_fmap, Forall_true; intros x;
    apply endswith_app.
Qed.

Lemma loop_outs_counts rank args m bs i rs :
  one_output_per_input →
  loop_outs rank args m i bs = Return rs →
  length (concat (map translation_lines rs)) = total_sentences rs ∧
  length (concat (map original_lines rs)) = total_sentences rs.
Proof.
  intros Hfwd. revert i rs. induction bs as [|b bs IH]; intros i rs.
  - by intros [= <-].
  - cbn [loop_outs].
    destruct (batch_out rank args m i b) as [r|e] eqn:Hb; [|done].
    destruct (loop_outs rank args m (S i) bs) as [rs'|e] eqn:Hbs; [|done].
    intros [= <-]. cbn [map concat total_sentences foldr].
    rewrite !length_app.
    destruct (batch_out_counts _ _ _ _ _ _ Hfwd Hb) as [-> ->].
    by destruct (IH _ _ Hbs) as [-> ->].
Qed.

Lemma loop_outs_terminated rank args m bs i rs :
  loop_outs rank args m i bs = Return rs →
  Forall (λ line, endswith line nl = true) (concat (map translation_lines rs)) ∧
  Forall (λ line, endswith line nl = true) (concat (map original_lines rs)).
Proof.
  revert i rs. induction bs as [|b bs IH]; intros i rs.
  - by intros [= <-].
  - cbn [loop_outs].
    destruct (batch_out rank args m i b) as [r|e] eqn:Hb; [|done].
    destruct (loop_outs rank args m (S i) bs) as [rs'|e] eqn:Hbs; [|done].
    intros [= <-]. cbn [map concat].
    destruct (batch_out_terminated _ _ _ _ _ _ Hb) as [Ht Ho].
    destruct (IH _ _ Hbs) as [Hts Hos].
    split; by apply Forall_app.
Qed.

Lemma loop_outs_length rank args m bs i rs :
  loop_outs rank args m i bs = Return rs → length rs = length bs.
Proof.
  revert i rs. induction bs as [|b bs IH]; intros i rs.
  - by intros [= <-].
  - cbn [loop_outs].
    destruct (batch_out rank args m i b) as [r|e]; [|done].
    destruct (loop_outs rank args m (S i) bs) as [rs'|e] eqn:Hbs; [|done].
    intros [= <-]. simpl. by rewrite (IH _ _ Hbs).
Qed.
End counting.

(** C3. When the model gives one output sequence per input sequence, a run
    that completes leaves two files with the same number of lines, and that
    number is the final value of [num_translated_sentences]. A line is one
    string written by [write], and each of them ends with a newline. *)
Theorem line_counts_agree `{NeMo} (rank world_size : nat) (args : Namespace)
    (w w' : world) (num_translated_sentences : nat) :
  one_output_per_input →
  translate rank world_size args w = (w', Return num_translated_sentences) →
  ∃ originals translations,
    fs w' !! originals_file_name args rank = Some (File originals) ∧
    fs w' !! translations_file_name args rank = Some (File translations) ∧
    length originals = num_translated_sentences ∧
    length translations = num_translated_sentences ∧
    Forall (λ line, endswith line nl = true) originals ∧
    Forall (λ line, endswith line nl = true) translations.
Proof.
  intros Hfwd Hrun.
  destruct (translate_completed _ _ _ _ _ _ Hrun)
    as (m0 & rs & _ & Hrs & -> & _ & Hof & Htf & _).
  destruct (loop_outs_counts _ _ _ _ _ _ Hfwd Hrs) as [Hnt Hno].
  destruct (loop_outs_terminated _ _ _ _ _ _ Hrs) as [Htt Hto].
  by eexists _, _.
Qed.

Lemma line_counts_agree_witness :
  ∃ originals translations,
    fs (translate 0 1 (Toy.args "m.nemo" "en" "de" false) Toy.empty_world).1
      !! originals_file_name (Toy.args "m.nemo" "en" "de" false) 0
      = Some (File originals) ∧
    fs (translate 0 1 (Toy.args "m.nemo" "en" "de" false) Toy.empty_world).1
      !! translations_file_name (Toy.args "m.nemo" "en" "de" false) 0
      = Some (File translations) ∧
    length originals = 4 ∧
    length translations = 4 ∧
    Forall (λ line, endswith line nl = true) originals ∧
    Forall (λ line, endswith line nl = true) translations.
Proof.
  apply (line_counts_agree (H:=Toy.toy) 0 1
           (Toy.args "m.nemo" "en" "de" false) Toy.empty_world).
  - intros m i src_ids src_mask k Hk. exact Hk.
  - vm_compute. reflexivity.
Defined.

Lemma count_nl_app (s t : string) : count_nl (s +:+ t) = count_nl s + count_nl t.
Proof.
  induction s as [|c s IH]; [done|].
  rewrite str_app_cons. cbn [count_nl]. rewrite IH. lia.
Qed.

Lemma count_nl_text_of (lines : list string) :
  Forall (λ line, count_nl line = 1) lines →
  count_nl (text_of lines) = length lines.
Proof.
  induction 1 as [|line lines Hline _ IH]; [done|].
  cbn [text_of foldr length]. rewrite count_nl_app, Hline.
  unfold text_of in IH. by rewrite IH.
Qed.

Lemma batch_out_single_lines `{NeMo} rank args m i batch r :
  single_line_detokenizers →
  batch_out rank args m i batch = Return r →
  Forall (λ line, count_nl line = 1) (translation_lines r) ∧
  Forall (λ line, count_nl line = 1) (original_lines r).
Proof.
  intros Hdetok. unfold batch_out.
  destruct (unpack _ _) as [[src_ids src_mask]|e]; [|done].
  destruct (tensor_len src_ids) as [k|e]; [|done].
  destruct (rows (to Cpu _)) as [ts|e]; [|done].
  destruct (rows src_ids) as [os|e]; [|done].
  intros [= <-]. cbn [translation_lines original_lines].
  split; rewrite map_fmap; apply Forall_fmap, Forall_true; intros x; simpl;
    rewrite count_nl_app; unfold translation_text, original_text;
    by rewrite Hdetok.
Qed.

Lemma loop_outs_single_lines `{NeMo} rank args m bs i rs :
  single_line_detokenizers →
  loop_outs rank args m i bs = Return rs →
  Forall (λ line, count_nl line = 1) (concat (map translation_lines rs)) ∧
  Forall (λ line, count_nl line = 1) (concat (map original_lines rs)).
Proof.
  intros Hdetok. revert i rs. induction bs as [|b bs IH]; intros i rs.
  - by intros [= <-].
  - cbn [loop_outs].
    destruct (batch_out rank args m i b) as [r|e] eqn:Hb; [|done].
    destruct (loop_outs rank args m (S i) bs) as [rs'|e] eqn:Hbs; [|done].
    intros [= <-]. cbn [map concat].
    destruct (batch_out_single_lines _ _ _ _ _ _ Hdetok Hb) as [Ht Ho].
    destruct (IH _ _ Hbs) as [Hts Hos].
    split; by apply Forall_app.
Qed.

(** Counted in newline characters instead: when the detokenizers return
    single-line text, the text of each file has as many newlines as there are
    sentences. *)
Lemma newline_counts_agree `{NeMo} (rank world_size : nat) (args : Namespace)
    (w w' : world) (num_translated_sentences : nat) :
  one_output_per_input → single_line_detokenizers →
  translate rank world_size args w = (w', Return num_translated_sentences) →
  count_nl (text_of (content w' (originals_file_name args rank))) =
    num_translated_sentences ∧
  count_nl (text_of (content w' (translations_file_name args rank))) =
    num_translated_sentences.
Proof.
  intros Hfwd Hdetok Hrun.
  destruct (translate_completed _ _ _ _ _ _ Hrun)
    as (m0 & rs & _ & Hrs & -> & _ & Hof & Htf & _).
  destruct (loop_outs_counts _ _ _ _ _ _ Hfwd Hrs) as [Hnt Hno].
  destruct (loop_outs_single_lines _ _ _ _ _ _ Hdetok Hrs) as [Hst Hso].
  unfold content. rewrite Hof, Htf.
  by rewrite !count_nl_text_of, Hnt, Hno.
Qed.

(** ** The two output files (line 124) *)

Lemma written_app p evs1 evs2 :
  written p (evs1 ++ evs2) = written p evs1 ++ written p evs2.
Proof. apply omap_app. Qed.

Lemma written_cons_write p q s evs :
  written p (EvWrite q s :: evs) =
    (if decide (q = p) then [s] else []) ++ written p evs.
Proof. unfold written. simpl. by destruct (decide (q = p)). Qed.

Lemma written_same p lines : written p (map (EvWrite p) lines) = lines.
Proof.
  induction lines as [|s lines IH]; [done|].
  cbn [map]. rewrite written_cons_write, decide_True by done. by rewrite IH.
Qed.

Lemma written_other p q lines : q ≠ p → written p (map (EvWrite q) lines) = [].
Proof.
  intros Hq. induction lines as [|s lines IH]; [done|].
  cbn [map]. rewrite written_cons_write, decide_False by done. by rewrite IH.
Qed.

Lemma written_loop_trace_of of_ tf rs :
  of_ ≠ tf → written of_ (loop_trace of_ tf rs) = concat (map original_lines rs).
Proof.
  intros Hne. unfold loop_trace. induction rs as [|r rs IH]; [done|].
  cbn [map concat]. rewrite !written_app, IH.
  by rewrite written_other, written_same.
Qed.

Lemma written_loop_trace_tf of_ tf rs :
  of_ ≠ tf → written tf (loop_trace of_ tf rs) = concat (map translation_lines rs).
Proof.
  intros Hne. unfold loop_trace. induction rs as [|r rs IH]; [done|].
  cbn [map concat]. rewrite !written_app, IH.
  by rewrite written_same, written_other, app_nil_r.
Qed.

Lemma loop_trace_writes of_ tf rs : Forall is_write (loop_trace of_ tf rs).
Proof.
  unfold loop_trace. induction rs as [|r rs IH]; [by constructor|].
  cbn [map concat]. rewrite !Forall_app. split_and!; [| |done];
    rewrite map_fmap; by apply Forall_fmap, Forall_true.
Qed.

Lemma content_open_w p w :
  fs w !! p ≠ Some Dir → content (exec (open_w p) w) p = [].
Proof.
  intros Hp. unfold content. rewrite fs_open_w by done.
  by rewrite lookup_insert_eq.
Qed.

(** C4, as stated, fails: the files are opened with mode ['w'], which empties
    a file that exists. Here [originals.txt] holds a line before the run; the
    run completes and the line is gone. *)
Lemma prior_content_is_discarded :
  content Toy.used_world
    (originals_file_name (Toy.args "m.nemo" "en" "de" false) 0)
    = ["old" +:+ nl] ∧
  (translate 0 1 (Toy.args "m.nemo" "en" "de" false) Toy.used_world).2
    = Return 4 ∧
  ("old" +:+ nl) ∉
    content (translate 0 1 (Toy.args "m.nemo" "en" "de" false) Toy.used_world).1
      (originals_file_name (Toy.args "m.nemo" "en" "de" false) 0).
Proof.
  split_and!; [by vm_compute | by vm_compute |].
  vm_compute content. intros Hin.
  repeat (apply elem_of_cons in Hin as [Heq|Hin]; [discriminate Heq|]).
  by apply elem_of_nil in Hin.
Qed.

(** C4, amended. In a run that completes, each of the two files is opened
    once, in write mode, before the first write, and closed once, after the
    last: the file events of the run are the two opens, then only writes, then
    the two closes, and afterwards neither file is open. Opening empties the
    file, so what it held before the run is discarded. Every write puts its
    string after what the file holds, so at the end each file holds exactly
    the strings written to it during the run, in the order of writing. *)
Theorem output_files_are_written_in_order `{NeMo} (rank world_size : nat)
    (args : Namespace) (w w' : world) (n : nat) :
  translate rank world_size args w = (w', Return n) →
  ∃ writes,
    trace w' =
      trace w ++
      [EvOpen (originals_file_name args rank);
       EvOpen (translations_file_name args rank)] ++
      writes ++
      [EvClose (translations_file_name args rank);
       EvClose (originals_file_name args rank)] ∧
    Forall is_write writes ∧
    content w' (originals_file_name args rank) =
      written (originals_file_name args rank) writes ∧
    content w' (translations_file_name args rank) =
      written (translations_file_name args rank) writes ∧
    (originals_file_name args rank ∉ opened w') ∧
    (translations_file_name args rank ∉ opened w') ∧
    (∀ p w0, fs w0 !! p ≠ Some Dir → content (exec (open_w p) w0) p = []) ∧
    (∀ p s w0, p ∈ opened w0 →
       content (exec (write p s) w0) p = content w0 p ++ [s]).
Proof.
  intros Hrun.
  destruct (translate_completed _ _ _ _ _ _ Hrun)
    as (m0 & rs & _ & _ & _ & _ & Hof & Htf & _ & Hopened & Htrace & _).
  pose proof (originals_ne_translations args rank) as Hne.
  exists (loop_trace (originals_file_name args rank)
            (translations_file_name args rank) rs).
  split_and!.
  - done.
  - apply loop_trace_writes.
  - unfold content. by rewrite Hof, written_loop_trace_of.
  - unfold content. by rewrite Htf, written_loop_trace_tf.
  - rewrite Hopened. by intros [? _]%list_elem_of_filter.
  - rewrite Hopened. intros [_ Hin]%list_elem_of_filter.
    by apply list_elem_of_filter in Hin as [? _].
  - apply content_open_w.
  - apply content_write_same.
Qed.

Lemma output_files_are_written_in_order_witness :
  ∃ writes,
    trace (translate 0 1 (Toy.args "m.nemo" "en" "de" false) Toy.used_world).1 =
      trace Toy.used_world ++
      [EvOpen (originals_file_name (Toy.args "m.nemo" "en" "de" false) 0);
       EvOpen (translations_file_name (Toy.args "m.nemo" "en" "de" false) 0)] ++
      writes ++
      [EvClose (translations_file_name (Toy.args "m.nemo" "en" "de" false) 0);
       EvClose (originals_file_name (Toy.args "m.nemo" "en" "de" false) 0)] ∧
    Forall is_write writes ∧
    content (translate 0 1 (Toy.args "m.nemo" "en" "de" false) Toy.used_world).1
      (originals_file_name (Toy.args "m.nemo" "en" "de" false) 0) =
      written (originals_file_name (Toy.args "m.nemo" "en" "de" false) 0) writes ∧
    content (translate 0 1 (Toy.args "m.nemo" "en" "de" false) Toy.used_world).1
      (translations_file_name (Toy.args "m.nemo" "en" "de" false) 0) =
      written (translations_file_name (Toy.args "m.nemo" "en" "de" false) 0) writes ∧
    (originals_file_name (Toy.args "m.nemo" "en" "de" false) 0 ∉
      opened (translate 0 1 (Toy.args "m.nemo" "en" "de" false) Toy.used_world).1) ∧
    (translations_file_name (Toy.args "m.nemo" "en" "de" false) 0 ∉
      opened (translate 0 1 (Toy.args "m.nemo" "en" "de" false) Toy.used_world).1) ∧
    (∀ p w0, fs w0 !! p ≠ Some Dir → content (exec (open_w p) w0) p = []) ∧
    (∀ p s w0, p ∈ opened w0 →
       content (exec (write p s) w0) p = content w0 p ++ [s]).
Proof.
  apply (output_files_are_written_in_order (H:=Toy.toy) 0 1
           (Toy.args "m.nemo" "en" "de" false) Toy.used_world _ 4).
  vm_compute. reflexivity.
Defined.

(** ** The progress log (lines 134-139) *)

Lemma keeps_log_mret {A} (a : A) : keeps_log (mret a).
Proof. by intros w. Qed.

Lemma keeps_log_lift {A} (o : outcome A) : keeps_log (lift o).
Proof. by intros w. Qed.

Lemma keeps_log_bind {A B} (m : M A) (f : A → M B) :
  keeps_log m → (∀ a, keeps_log (f a)) → keeps_log (m ≫= f).
Proof.
  intros Hm Hf w. rewrite bind_run. specialize (Hm w).
  destruct (m w) as [w1 [a|e]]; simpl in *; [by rewrite Hf | done].
Qed.

Lemma keeps_log_for_each {A} (l : list A) (body : A → M unit) :
  (∀ a, keeps_log (body a)) → keeps_log (for_each l body).
Proof.
  intros Hbody. induction l as [|a l IH]; [apply keeps_log_mret|].
  apply keeps_log_bind; [apply Hbody | by intros _].
Qed.

Lemma keeps_log_write p s : keeps_log (write p s).
Proof. intros w. apply log_write. Qed.

Lemma keeps_log_use {A} name (v : option A) : keeps_log (use name v).
Proof. by destruct v. Qed.

Section progress.
Context `{NeMo}.

Lemma keeps_log_translation_line args m l t :
  keeps_log (translation_line args m l t).
Proof.
  unfold translation_line. apply keeps_log_bind.
  - destruct (String.eqb (target_lang args) "ja"); [|apply keeps_log_mret].
    apply keeps_log_bind; [apply keeps_log_use | intros; apply keeps_log_mret].
  - intros s. apply keeps_log_bind; [apply keeps_log_use|].
    intros; apply keeps_log_mret.
Qed.

Lemma keeps_log_original_line args m l o :
  keeps_log (original_line args m l o).
Proof.
  unfold original_line. apply keeps_log_bind.
  - destruct (String.eqb (target_lang args) "ja"); [|apply keeps_log_mret].
    apply keeps_log_bind; [apply keeps_log_use | intros; apply keeps_log_mret].
  - intros s. apply keeps_log_bind; [apply keeps_log_use|].
    intros; apply keeps_log_mret.
Qed.

(** One turn of the loop logs the progress line when it is due and the batch
    unpacks, and nothing else, however the turn ends. *)
Lemma log_loop_body rank args m l of_ tf i batch num w :
  log (loop_body rank args m l of_ tf i batch num w).1 =
    log w ++
    match unpack (twoside args) (map (prepared rank) batch) with
    | Return _ => progress rank i num
    | Raise _ => []
    end.
Proof.
  unfold loop_body, loop_body_unpacked. rewrite prepare_map. rewrite bind_run. unfold lift at 1.
  rewrite bind_run. unfold lift at 1.
  destruct (unpack (twoside args) (map (prepared rank) batch))
    as [[src_ids src_mask]|e]; [|by rewrite app_nil_r].
  rewrite bind_run, log_progress.
  match goal with |- log (?rest ?w1).1 = _ =>
    assert (keeps_log rest) as Hrest end.
  { apply keeps_log_bind; [apply keeps_log_lift|]. intros n.
    apply keeps_log_bind; [apply keeps_log_lift|]. intros ts.
    apply keeps_log_bind.
    { apply keeps_log_for_each. intros t. apply keeps_log_bind;
        [apply keeps_log_translation_line | intros; apply keeps_log_write]. }
    intros _. apply keeps_log_bind; [apply keeps_log_lift|]. intros os.
    apply keeps_log_bind; [|intros; apply keeps_log_mret].
    apply keeps_log_for_each. intros o. apply keeps_log_bind;
      [apply keeps_log_original_line | intros; apply keeps_log_write]. }
  by rewrite Hrest.
Qed.
End progress.

(** The progress lines of a run of batches: one for every index divisible by
    100, each with the sentences of the batches before it. *)
Lemma progress_log_filter rank rs i num :
  progress_log rank i num rs =
    map (λ j, progress_msg j (num + total_sentences (take (j - i) rs)) rank)
        (filter (λ j, j mod 100 = 0) (seq i (length rs))).
Proof.
  revert i num. induction rs as [|r rs IH]; intros i num; [done|].
  cbn [progress_log length seq]. rewrite IH. unfold progress.
  rewrite filter_cons.
  assert (map (λ j, progress_msg j
                 (num + sentences r + total_sentences (take (j - S i) rs)) rank)
              (filter (λ j, j mod 100 = 0) (seq (S i) (length rs))) =
          map (λ j, progress_msg j
                 (num + total_sentences (take (j - i) (r :: rs))) rank)
              (filter (λ j, j mod 100 = 0) (seq (S i) (length rs)))) as ->.
  { apply map_ext_in. intros j Hj%list_elem_of_In.
    apply list_elem_of_filter in Hj as [_ Hj]. apply elem_of_seq in Hj.
    replace (j - i) with (S (j - S i)) by lia.
    cbn [take total_sentences foldr]. f_equal. unfold total_sentences. lia. }
  destruct (Nat.eqb_spec (i mod 100) 0) as [Hi|Hi].
  - rewrite decide_True by done. cbn [map app]. f_equal.
    rewrite Nat.sub_diag. cbn [take total_sentences foldr].
    by rewrite Nat.add_0_r.
  - by rewrite decide_False.
Qed.

(** C6. In every turn of the batch loop that gets as far as line 134 (its
    batch unpacks), the progress line is logged exactly when the zero-based
    batch index is a multiple of 100; its text is
    [<batch_idx> batches (<count> sentences) were translated by process with
    rank <rank>], where the count is the value of [num_translated_sentences]
    before the turn adds its own sentences; the turn logs nothing else. Hence
    a run that completes has logged, after the line about the model file, one
    progress line for each of the indices 0, 100, 200, ... below the number
    of batches, each with the number of sentences of the batches before
    it. *)
Theorem progress_logged_every_100_batches `{NeMo} (rank world_size : nat)
    (args : Namespace) :
  (∀ m l of_ tf batch_idx batch num_translated_sentences w,
     log (loop_body rank args m l of_ tf batch_idx batch
            num_translated_sentences w).1 =
       log w ++
       match unpack (twoside args) (map (prepared rank) batch) with
       | Return _ =>
           if (batch_idx mod 100 =? 0)%nat
           then [pretty batch_idx +:+ " batches (" +:+
                 pretty num_translated_sentences +:+
                 " sentences) were translated by process with rank " +:+
                 pretty rank]
           else []
       | Raise _ => []
       end) ∧
  (∀ w w' n,
     translate rank world_size args w = (w', Return n) →
     ∃ m0 rs,
       loaded args = Some m0 ∧
       loop_outs rank args (ready_model rank args m0) 0
         (loader rank world_size args (ready_model rank args m0)) = Return rs ∧
       length rs = length (loader rank world_size args (ready_model rank args m0)) ∧
       log w' =
         log w ++ load_log args ++
         map (λ j, pretty j +:+ " batches (" +:+
                   pretty (total_sentences (take j rs)) +:+
                   " sentences) were translated by process with rank " +:+
                   pretty rank)
             (filter (λ j, j mod 100 = 0) (seq 0 (length rs)))).
Proof.
  split.
  - intros. apply log_loop_body.
  - intros w w' n Hrun.
    destruct (translate_completed _ _ _ _ _ _ Hrun)
      as (m0 & rs & Hm0 & Hrs & _ & _ & _ & _ & _ & _ & _ & Hlog & _).
    exists m0, rs. split_and!; [done | done | by eapply loop_outs_length |].
    rewrite Hlog, progress_log_filter. do 2 f_equal.
    apply map_ext. intros j. by rewrite Nat.sub_0_r.
Qed.

Lemma progress_logged_every_100_batches_witness :
  log (translate 0 1 Toy.big_args Toy.empty_world).1 =
    ["Attempting to initialize from .nemo file";
     "0 batches (0 sentences) were translated by process with rank 0";
     "100 batches (200 sentences) were translated by process with rank 0"].
Proof.
  assert (translate 0 1 Toy.big_args Toy.empty_world =
            ((translate 0 1 Toy.big_args Toy.empty_world).1, Return 202))
    as Hrun by (vm_compute; reflexivity).
  destruct (proj2 (progress_logged_every_100_batches (H:=Toy.toy) 0 1
                     Toy.big_args) Toy.empty_world _ 202 Hrun)
    as (m0 & rs & Hm0 & Hrs & _ & Hlog).
  rewrite Hlog. injection Hm0 as <-.
  vm_compute in Hrs. injection Hrs as <-.
  vm_compute. reflexivity.
Defined.

(** The log of that run: the batches 0 and 100 are reported, with 0 and 200
    sentences. *)
Example progress_log_of_101_batches :
  log (translate 0 1 Toy.big_args Toy.empty_world).1 =
    ["Attempting to initialize from .nemo file";
     "0 batches (0 sentences) were translated by process with rank 0";
     "100 batches (200 sentences) were translated by process with rank 0"].
Proof. by vm_compute. Qed.

(** ** The directory of a rank (lines 105-108) *)

(** Two ranks never share a directory. *)
Lemma rank_dir_inj (args : Namespace) (rank1 rank2 : nat) :
  rank_dir args rank1 = rank_dir args rank2 → rank1 = rank2.
Proof.
  rewrite !rank_dir_explicit.
  intros Heq%(inj (String.app _)). apply (inj (String.app _)) in Heq.
  apply (inj (String.app "rank")) in Heq. by apply (inj pretty) in Heq.
Qed.



(** * Further properties of the procedure *)

(** ** What a computation leaves alone *)

Lemma preserves_mret {A T} (f : world → T) (a : A) : preserves f (mret a).
Proof. by intros w. Qed.

Lemma preserves_lift {A T} (f : world → T) (o : outcome A) : preserves f (lift o).
Proof. by intros w. Qed.

Lemma preserves_use {A T} (f : world → T) name (v : option A) :
  preserves f (use name v).
Proof. by destruct v. Qed.

Lemma preserves_bind {A B T} (f : world → T) (m : M A) (k : A → M B) :
  preserves f m → (∀ a, preserves f (k a)) → preserves f (m ≫= k).
Proof.
  intros Hm Hk w. rewrite bind_run. specialize (Hm w).
  destruct (m w) as [w1 [a|e]]; simpl in *; [by rewrite Hk | done].
Qed.

Lemma preserves_for_each {A T} (f : world → T) (l : list A) (body : A → M unit) :
  (∀ a, preserves f (body a)) → preserves f (for_each l body).
Proof.
  intros Hbody. induction l as [|a l IH]; [apply preserves_mret|].
  apply preserves_bind; [apply Hbody | by intros _].
Qed.

Lemma preserves_for_enumerate {A S T} (f : world → T) (l : list A)
    (body : nat → A → S → M S) i s :
  (∀ i a s, preserves f (body i a s)) → preserves f (for_enumerate i l s body).
Proof.
  intros Hbody. revert i s. induction l as [|a l IH]; intros i s.
  - apply preserves_mret.
  - apply preserves_bind; [apply Hbody | intros s'; apply IH].
Qed.

Lemma preserves_with_open_w {A T} (f : world → T) p (body : M A) :
  preserves f (open_w p) → (∀ w, f (close p w) = f w) → preserves f body →
  preserves f (with_open_w p body).
Proof.
  intros Hopen Hclose Hbody w. unfold with_open_w.
  specialize (Hopen w). destruct (open_w p w) as [w1 [[]|e]]; simpl in *; [|done].
  specialize (Hbody w1). destruct (body w1) as [w2 r]. simpl in *.
  by rewrite Hclose, Hbody.
Qed.

Section preserved_by_the_loop.
Context `{NeMo} {T : Type} (f : world → T).
Variables (rank : nat) (args : Namespace) (m : MTEncDecModel) (l : locals).
Variables (of_ tf : string).
Hypothesis f_log : ∀ msg, preserves f (logging_info msg).
Hypothesis f_write_of : ∀ s, preserves f (write of_ s).
Hypothesis f_write_tf : ∀ s, preserves f (write tf s).

Lemma preserves_translation_line t : preserves f (translation_line args m l t).
Proof.
  unfold translation_line. apply preserves_bind.
  - destruct (String.eqb (target_lang args) "ja"); [|apply preserves_mret].
    apply preserves_bind; [apply preserves_use | intros; apply preserves_mret].
  - intros s. apply preserves_bind; [apply preserves_use|].
    intros; apply preserves_mret.
Qed.

Lemma preserves_original_line o : preserves f (original_line args m l o).
Proof.
  unfold original_line. apply preserves_bind.
  - destruct (String.eqb (target_lang args) "ja"); [|apply preserves_mret].
    apply preserves_bind; [apply preserves_use | intros; apply preserves_mret].
  - intros s. apply preserves_bind; [apply preserves_use|].
    intros; apply preserves_mret.
Qed.

(** A turn of the loop changes only what logging and writing to the two
    files change. *)
Lemma preserves_loop_body i batch num :
  preserves f (loop_body rank args m l of_ tf i batch num).
Proof.
  unfold loop_body, loop_body_unpacked.
  apply preserves_bind; [apply preserves_lift|]. intros b.
  apply preserves_bind; [apply preserves_lift|]. intros [src_ids src_mask].
  apply preserves_bind.
  { destruct (i mod 100 =? 0)%nat; [apply f_log | apply preserves_mret]. }
  intros _. apply preserves_bind; [apply preserves_lift|]. intros n.
  apply preserves_bind; [apply preserves_lift|]. intros ts.
  apply preserves_bind.
  { apply preserves_for_each. intros t. apply preserves_bind;
      [apply preserves_translation_line | intros; apply f_write_tf]. }
  intros _. apply preserves_bind; [apply preserves_lift|]. intros os.
  apply preserves_bind; [|intros; apply preserves_mret].
  apply preserves_for_each. intros o. apply preserves_bind;
    [apply preserves_original_line | intros; apply f_write_of].
Qed.
End preserved_by_the_loop.

(** *** The nodes of the file system *)

Lemma node_logging_info q msg : preserves (λ w, fs w !! q) (logging_info msg).
Proof. by intros w. Qed.

Lemma node_write q p s : q ≠ p → preserves (λ w, fs w !! q) (write p s).
Proof. intros Hq w. by apply fs_write_other. Qed.

Lemma node_open_w q p : q ≠ p → preserves (λ w, fs w !! q) (open_w p).
Proof.
  intros Hq w. unfold open_w.
  destruct (fs w !! p) as [[|c]|]; simpl; by rewrite ?lookup_insert_ne.
Qed.

Lemma node_makedirs q p :
  q ≠ p → String.length (os_path_split p).1 < String.length q →
  preserves (λ w, fs w !! q) (makedirs_exist_ok p).
Proof. intros Hq Hlen w. by apply makedirs_changes. Qed.

(** *** The process-wide settings *)





(** *** The open files *)

Lemma opened_logging_info msg : preserves opened (logging_info msg).
Proof. by intros w. Qed.

Lemma opened_write_any p s : preserves opened (write p s).
Proof. intros w. apply opened_write. Qed.

Lemma no_leak_preserves {A} (m : M A) : preserves opened m → no_leak m.
Proof. intros Hm w p. by rewrite Hm. Qed.

Lemma no_leak_bind {A B} (m : M A) (k : A → M B) :
  no_leak m → (∀ a, no_leak (k a)) → no_leak (m ≫= k).
Proof.
  intros Hm Hk w p. rewrite bind_run. specialize (Hm w).
  destruct (m w) as [w1 [a|e]]; simpl in *; [|by apply Hm].
  intros Hp. by apply Hm, (Hk a).
Qed.

(** A [with] block closes what it opened, however its body ends. *)
Lemma no_leak_with_open_w {A} p (body : M A) :
  no_leak body → no_leak (with_open_w p body).
Proof.
  intros Hbody w q. unfold with_open_w, open_w.
  destruct (fs w !! p) as [[|c]|]; simpl; [done | |];
    (specialize (Hbody (set_fs w (<[p:=File []]> (fs w)) (p :: opened w)
                          (trace w ++ [EvOpen p])));
     destruct (body _) as [w2 r]; simpl in *;
     intros [Hqp Hq]%list_elem_of_filter;
     apply Hbody, elem_of_cons in Hq as [->|Hq]; done).
Qed.

(** ** What a run leaves alone *)

Section run_frame.
Context `{NeMo}.
Variables (rank world_size : nat) (args : Namespace).

Lemma preserves_load_model {T} (f : world → T) :
  (∀ msg, preserves f (logging_info msg)) → preserves f (load_model args).
Proof.
  intros Hlog. unfold load_model.
  destruct (endswith (model args) ".nemo").
  { apply preserves_bind; [apply Hlog | intros; apply preserves_mret]. }
  destruct (endswith (model args) ".ckpt"); [|apply preserves_mret].
  apply preserves_bind; [apply Hlog | intros; apply preserves_mret].
Qed.

Lemma node_with_block m q :
  q ≠ originals_file_name args rank → q ≠ translations_file_name args rank →
  preserves (λ w, fs w !! q) (with_block rank world_size args m).
Proof.
  intros Hof Htf. unfold with_block.
  apply preserves_with_open_w; [by apply node_open_w | done |].
  apply preserves_with_open_w; [by apply node_open_w | done |].
  apply preserves_for_enumerate. intros.
  apply preserves_loop_body;
    [apply node_logging_info | intros; by apply node_write..].
Qed.


Lemma no_leak_with_block m : no_leak (with_block rank world_size args m).
Proof.
  unfold with_block. do 2 apply no_leak_with_open_w.
  apply no_leak_preserves, preserves_for_enumerate. intros.
  apply preserves_loop_body;
    [apply opened_logging_info | intros; apply opened_write_any..].
Qed.

Lemma translate_frame q :
  q ∉ rank_paths args rank →
  String.length (os_path_split (rank_dir args rank)).1 < String.length q →
  preserves (λ w, fs w !! q) (translate rank world_size args).
Proof.
  intros Hq Hlen. unfold rank_paths in Hq.
  apply not_elem_of_cons in Hq as [Hdir Hq].
  apply not_elem_of_cons in Hq as [Hof Hq].
  apply not_elem_of_cons in Hq as [Htf _].
  unfold translate.
  apply preserves_bind; [by intros w|]. intros _.
  apply preserves_bind; [by intros w|]. intros _.
  apply preserves_bind; [apply preserves_load_model, node_logging_info|].
  intros model0. apply preserves_bind; [apply preserves_use|]. intros m0.
  apply preserves_bind; [by apply node_makedirs|]. intros _.
  apply preserves_bind; [by apply node_with_block|]. intros n.
  apply preserves_bind; [by intros w | intros; apply preserves_mret].
Qed.


Lemma translate_no_leak : no_leak (translate rank world_size args).
Proof.
  unfold translate.
  apply no_leak_bind; [by intros w p|]. intros _.
  apply no_leak_bind; [by intros w p|]. intros _.
  apply no_leak_bind.
  { apply no_leak_preserves, preserves_load_model, opened_logging_info. }
  intros model0. apply no_leak_bind.
  { apply no_leak_preserves, preserves_use. }
  intros m0. apply no_leak_bind.
  { apply no_leak_preserves. intros w. apply makedirs_frame. }
  intros _. apply no_leak_bind; [apply no_leak_with_block|]. intros n.
  apply no_leak_bind; [by intros w p | intros; by intros w p].
Qed.
End run_frame.



(** X3. However a run ends, it leaves no file open that was not open before
    it: the [with] statement closes both output files also when the loop
    raises. *)
Theorem run_leaves_no_file_open `{NeMo} (rank world_size : nat)
    (args : Namespace) (w : world) (p : string) :
  p ∈ opened (translate rank world_size args w).1 → p ∈ opened w.
Proof. apply translate_no_leak. Qed.

Lemma run_leaves_no_file_open_witness :
  "notes.txt" ∈
    opened (World ∅ None true ∅ ["notes.txt"] [] []).
Proof.
  apply (run_leaves_no_file_open (H:=Faulty.nemo) 0 1 (Faulty.args "bad.tar")).
  vm_compute. left.
Defined.


(** ** The paths of different ranks *)

(** Two strings are cut at their first slash in one way only. *)
Lemma first_slash (p1 p2 a b : string) :
  slash_free p1 = true → slash_free p2 = true →
  p1 +:+ String "/" a = p2 +:+ String "/" b → p1 = p2 ∧ a = b.
Proof.
  revert p2. induction p1 as [|c p1 IH]; intros [|d p2];
    rewrite ?str_app_cons; change ("" +:+ ?x) with x; cbn [slash_free].
  - by intros _ _ [= ->].
  - intros _ Hd [= <- _]. done.
  - intros Hc _ [= -> _]. done.
  - intros [_ H1]%andb_true_iff [_ H2]%andb_true_iff [= -> Heq].
    by destruct (IH p2 H1 H2 Heq) as [-> ->].
Qed.

(** Each of a rank's paths is one stem, the rank, and either nothing or a
    slash and a file name. *)
Lemma rank_path_form (args : Namespace) (rank : nat) (p : string) :
  p ∈ rank_paths args rank →
  ∃ suffix,
    p = (result_dir args +:+
         (if String.eqb (result_dir args) "" || endswith (result_dir args) "/"
          then "" else "/") +:+ "rank") +:+ pretty rank +:+ suffix ∧
    (suffix = "" ∨ ∃ name, suffix = String "/" name).
Proof.
  unfold rank_paths, originals_file_name, translations_file_name.
  rewrite !file_in_rank_dir by done. rewrite rank_dir_explicit.
  intros Hp. repeat (apply elem_of_cons in Hp as [->|Hp]).
  - exists "". rewrite !str_app_assoc, str_app_empty_r. by split; [|left].
  - exists "/originals.txt". rewrite !str_app_assoc. split; [done|]. right.
    by eexists.
  - exists "/translations.txt". rewrite !str_app_assoc. split; [done|]. right.
    by eexists.
  - by apply elem_of_nil in Hp.
Qed.

Lemma rank_paths_disjoint (args : Namespace) (rank1 rank2 : nat) (p : string) :
  rank1 ≠ rank2 → p ∈ rank_paths args rank1 → p ∉ rank_paths args rank2.
Proof.
  intros Hne (s1 & -> & Hs1)%rank_path_form (s2 & Heq & Hs2)%rank_path_form.
  apply (inj (String.app _)) in Heq. apply Hne.
  pose proof (slash_free_pretty rank1) as H1.
  pose proof (slash_free_pretty rank2) as H2.
  destruct Hs1 as [->|[n1 ->]], Hs2 as [->|[n2 ->]].
  - rewrite !str_app_empty_r in Heq. by apply (inj pretty).
  - rewrite str_app_empty_r in Heq. rewrite Heq, slash_free_app in H1.
    by rewrite H2 in H1.
  - rewrite str_app_empty_r in Heq. rewrite <- Heq, slash_free_app in H2.
    by rewrite H1 in H2.
  - apply first_slash in Heq as [Heq _]; [|done..]. by apply (inj pretty).
Qed.

(** X2. Two different ranks work on disjoint paths: no path among the
    directory and the two files of one rank is among those of the other, so a
    run of one rank, however it ends, leaves the directory and the files of
    the other as they were. *)
Theorem ranks_do_not_interfere `{NeMo} (rank1 rank2 world_size : nat)
    (args : Namespace) (w : world) (p : string) :
  rank1 ≠ rank2 →
  p ∈ rank_paths args rank1 →
  (p ∉ rank_paths args rank2) ∧
  fs (translate rank2 world_size args w).1 !! p = fs w !! p.
Proof.
  intros Hne Hp.
  pose proof (rank_paths_disjoint args rank1 rank2 p Hne Hp) as Hp2.
  split; [done|].
  apply (translate_frame rank2 world_size args p Hp2).
  unfold rank_paths in Hp. repeat (apply elem_of_cons in Hp as [->|Hp]).
  - apply rank_dir_head_shorter.
  - apply rank_dir_head_shorter_of.
  - apply rank_dir_head_shorter_tf.
  - by apply elem_of_nil in Hp.
Qed.

Lemma ranks_do_not_interfere_witness :
  ("out/rank0/originals.txt" ∉ rank_paths (Toy.args "m.nemo" "en" "de" false) 1) ∧
  fs (translate 1 2 (Toy.args "m.nemo" "en" "de" false) Toy.used_world).1
    !! "out/rank0/originals.txt" =
  fs Toy.used_world !! "out/rank0/originals.txt".
Proof.
  apply (ranks_do_not_interfere (H:=Toy.toy) 0 1 2
           (Toy.args "m.nemo" "en" "de" false) Toy.used_world).
  - discriminate.
  - vm_compute. right. left.
Defined.

(** ** How a run ends *)

Section outcome.
Context `{NeMo}.

Lemma batch_out_exn rank args m i batch e :
  batch_out rank args m i batch = Raise e →
  (∃ msg, e = ValueError msg) ∨ (∃ msg, e = TypeError msg).
Proof.
  unfold batch_out.
  destruct (unpack _ _) as [[src_ids src_mask]|e'] eqn:Hu.
  2:{ intros [= <-]. left. by eapply unpack_exn. }
  destruct (tensor_len src_ids) as [k|e'] eqn:Hlen.
  2:{ intros [= <-]. right. by eapply tensor_len_exn. }
  destruct (rows (to Cpu _)) as [ts|e'] eqn:Hts.
  2:{ intros [= <-]. right. by eapply rows_exn. }
  destruct (rows src_ids) as [os|e'] eqn:Hos; [done|].
  intros [= <-]. right. by eapply rows_exn.
Qed.

Lemma loop_outs_exn rank args m bs i e :
  loop_outs rank args m i bs = Raise e →
  (∃ msg, e = ValueError msg) ∨ (∃ msg, e = TypeError msg).
Proof.
  revert i. induction bs as [|b bs IH]; intros i; [done|].
  cbn [loop_outs].
  destruct (batch_out rank args m i b) as [r|e'] eqn:Hb.
  - destruct (loop_outs rank args m (S i) bs) as [rs|e'] eqn:Hbs; [done|].
    intros [= <-]. by eapply IH.
  - intros [= <-]. by eapply batch_out_exn.
Qed.

Lemma batch_out_ok_iff rank args m i batch :
  (∃ r, batch_out rank args m i batch = Return r) ↔ batch_ok rank args m i batch.
Proof.
  unfold batch_out, batch_ok, tensor_len, rows. split.
  - intros [r Hr].
    destruct (unpack _ _) as [[src_ids src_mask]|e]; [|done].
    exists src_ids, src_mask. split; [done|].
    destruct (shape src_ids) as [|k ks]; [done|].
    cbn [to shape] in Hr.
    destruct (shape (forward m i src_ids src_mask)); [done|]. done.
  - intros (src_ids & src_mask & -> & Hs & Hf).
    destruct (shape src_ids) as [|k ks] eqn:Hshape; [done|].
    cbn [to shape].
    destruct (shape (forward m i src_ids src_mask)); [done|]. by eexists.
Qed.

Lemma loop_outs_ok_iff rank args m bs i :
  (∃ rs, loop_outs rank args m i bs = Return rs) ↔
  ∀ j b, bs !! j = Some b → batch_ok rank args m (i + j) b.
Proof.
  revert i. induction bs as [|b bs IH]; intros i.
  - split; [done | by eexists].
  - cbn [loop_outs]. split.
    + intros [rs Hrs] j b' Hj.
      destruct (batch_out rank args m i b) as [r|e] eqn:Hb; [|done].
      destruct (loop_outs rank args m (S i) bs) as [rs'|e] eqn:Hbs; [|done].
      destruct j as [|j]; simpl in Hj.
      * injection Hj as <-. rewrite Nat.add_0_r.
        apply batch_out_ok_iff. by eexists.
      * replace (i + S j) with (S i + j) by lia.
        apply (proj1 (IH (S i))); [by eexists | done].
    + intros Hall.
      destruct (proj2 (batch_out_ok_iff rank args m i b)) as [r ->].
      { rewrite <- (Nat.add_0_r i). by apply Hall. }
      destruct (proj2 (IH (S i))) as [rs ->]; [|by eexists].
      intros j b' Hj. replace (S i + j) with (i + S j) by lia. by apply Hall.
Qed.

(** A loop that raises has a batch that is not as expected. *)
Lemma bad_batch_of_raise rank args m bs i e :
  loop_outs rank args m i bs = Raise e →
  ∃ j b, bs !! j = Some b ∧ ¬ batch_ok rank args m (i + j) b.
Proof.
  revert i e. induction bs as [|b bs IH]; intros i e; [done|].
  cbn [loop_outs].
  destruct (batch_out rank args m i b) as [r|e'] eqn:Hb.
  - destruct (loop_outs rank args m (S i) bs) as [rs|e'] eqn:Hbs; [done|].
    intros _. destruct (IH (S i) e' Hbs) as (j & b' & Hj & Hbad).
    exists (S j), b'. split; [done|]. by replace (i + S j) with (S i + j) by lia.
  - intros _. exists 0, b. split; [done|]. rewrite Nat.add_0_r.
    intros [r Hr]%batch_out_ok_iff. congruence.
Qed.

Variables (rank world_size : nat) (args : Namespace).

(** The end of a run, from what is there before it: the checks come in the
    order model path, rank directory, the two files, the batches. *)
Lemma translate_outcome w :
  (translate rank world_size args w).2 =
    match loaded args with
    | None => Raise (UnboundLocalError "model")
    | Some m0 =>
        match (makedirs_exist_ok (rank_dir args rank) w).2 with
        | Raise e => Raise e
        | Return _ =>
            if decide (fs w !! originals_file_name args rank = Some Dir)
            then Raise (IsADirectoryError (originals_file_name args rank))
            else if decide (fs w !! translations_file_name args rank = Some Dir)
            then Raise (IsADirectoryError (translations_file_name args rank))
            else
              match loop_outs rank args (ready_model rank args m0) 0
                      (loader rank world_size args (ready_model rank args m0)) with
              | Return rs => Return (total_sentences rs)
              | Raise e => Raise e
              end
        end
    end.
Proof.
  rewrite translate_run. cbv zeta.
  destruct (loaded args) as [m0|]; [|done].
  set (w1 := log_all (load_log args) (setup_world rank world_size args w)).
  set (m := ready_model rank args m0).
  assert ((makedirs_exist_ok (rank_dir args rank) w).2 =
          (makedirs_exist_ok (rank_dir args rank) w1).2) as ->
    by (by rewrite !makedirs_exist_ok_run).
  change (fs w) with (fs w1).
  pose proof (originals_ne_translations args rank) as Hne.
  destruct (makedirs_exist_ok (rank_dir args rank) w1) as [w2 [[]|e]] eqn:Hmk;
    [|done].
  apply (makedirs_ok rank args) in Hmk as (_ & _ & Hof2 & Htf2 & _).
  cbn [snd]. rewrite <- Hof2, <- Htf2. unfold with_block.
  destruct (decide (fs w2 !! originals_file_name args rank = Some Dir))
    as [Hof|Hof]; [by rewrite with_files_raise_of|].
  destruct (decide (fs w2 !! translations_file_name args rank = Some Dir))
    as [Htf|Htf].
  { pose proof (with_files_raise_tf (originals_file_name args rank)
                  (translations_file_name args rank)
                  (for_enumerate 0 (loader rank world_size args m) 0
                     (loop_body rank args m (assign_detokenizers args)
                        (originals_file_name args rank)
                        (translations_file_name args rank))) w2 Hof) as Hraise.
    rewrite fs_open_w, lookup_insert_ne in Hraise by done.
    specialize (Hraise Htf).
    by destruct (with_open_w _ _ w2) as [w3 [n'|e]]; simpl in *; subst. }
  rewrite with_files_run by done. cbv beta iota.
  pose proof (opened_opened_world _ _ w2 Hne Hof Htf) as Hop.
  destruct (loop_outs rank args m 0 (loader rank world_size args m))
    as [rs|e] eqn:Hrs.
  - by rewrite (loop_run rank _ _ args m _ rs) by (rewrite ?Hop; set_solver).
  - by rewrite (loop_raise rank (originals_file_name args rank)
                  (translations_file_name args rank) args m _ e 0 0
                  (opened_world (originals_file_name args rank)
                     (translations_file_name args rank) w2))
      by (rewrite ?Hop; set_solver).
Qed.
End outcome.

(** X4. What a run that completes tells about its inputs: the model path
    ends in ".nemo" or ".ckpt" (a model was loaded), the rank's directory
    was not taken by a regular file, neither output path was taken by a
    directory, and every batch of the loader unpacks into tensors that are
    not 0-dimensional, as is what the model returns for them. *)
Theorem run_completes_only_if `{NeMo} (rank world_size : nat)
    (args : Namespace) (w w' : world) (n : nat) :
  translate rank world_size args w = (w', Return n) →
  ∃ m0,
    loaded args = Some m0 ∧
    (∀ lines, fs w !! rank_dir args rank ≠ Some (File lines)) ∧
    fs w !! originals_file_name args rank ≠ Some Dir ∧
    fs w !! translations_file_name args rank ≠ Some Dir ∧
    ∀ batch_idx batch,
      loader rank world_size args (ready_model rank args m0) !! batch_idx
        = Some batch →
      batch_ok rank args (ready_model rank args m0) batch_idx batch.
Proof.
  intros Hrun.
  pose proof (translate_outcome rank world_size args w) as Hout.
  rewrite Hrun in Hout. cbn [snd] in Hout.
  destruct (loaded args) as [m0|]; [|done]. exists m0.
  destruct (makedirs_exist_ok (rank_dir args rank) w) as [w2 [[]|e]] eqn:Hmk;
    [|done].
  apply (makedirs_ok rank args) in Hmk as (Hdir & Hmono & _).
  cbn [snd] in Hout.
  destruct (decide (fs w !! originals_file_name args rank = Some Dir)); [done|].
  destruct (decide (fs w !! translations_file_name args rank = Some Dir));
    [done|].
  destruct (loop_outs _ _ _ _ _) as [rs|e] eqn:Hrs; [|done].
  split_and!; [done | | done | done |].
  - intros lines Hfile.
    destruct (Hmono (rank_dir args rank)) as [Heq|[Heq _]]; congruence.
  - intros j b Hj.
    apply (proj1 (loop_outs_ok_iff rank args _ _ 0) (ex_intro _ rs Hrs) j b Hj).
Qed.

Lemma run_completes_only_if_witness :
  ∃ m0,
    loaded (Toy.args "m.nemo" "en" "de" false) = Some m0 ∧
    (∀ lines,
       fs Toy.used_world !! rank_dir (Toy.args "m.nemo" "en" "de" false) 0
         ≠ Some (File lines)) ∧
    fs Toy.used_world !! originals_file_name (Toy.args "m.nemo" "en" "de" false) 0
      ≠ Some Dir ∧
    fs Toy.used_world !! translations_file_name (Toy.args "m.nemo" "en" "de" false) 0
      ≠ Some Dir ∧
    ∀ batch_idx batch,
      loader 0 1 (Toy.args "m.nemo" "en" "de" false)
        (ready_model 0 (Toy.args "m.nemo" "en" "de" false) m0) !! batch_idx
        = Some batch →
      batch_ok 0 (Toy.args "m.nemo" "en" "de" false)
        (ready_model 0 (Toy.args "m.nemo" "en" "de" false) m0) batch_idx batch.
Proof.
  apply (run_completes_only_if (H:=Toy.toy) 0 1
           (Toy.args "m.nemo" "en" "de" false) Toy.used_world
           (translate 0 1 (Toy.args "m.nemo" "en" "de" false) Toy.used_world).1 4).
  vm_compute. reflexivity.
Defined.

(** ** A run that meets a bad batch *)

Section bad_batch.
Context `{NeMo}.
Variables (rank : nat) (of_ tf : string) (args : Namespace) (m : MTEncDecModel).

(** The loop, up to the first batch that is not as expected: the turns before
    it are done in full, and the turn of the bad batch writes nothing. *)
Lemma loop_fail_run bs1 b bs2 rs1 e i num w :
  of_ ∈ opened w → tf ∈ opened w →
  loop_outs rank args m i bs1 = Return rs1 →
  batch_out rank args m (i + length bs1) b = Raise e →
  ∃ w',
    for_enumerate i (bs1 ++ b :: bs2) num
      (loop_body rank args m (assign_detokenizers args) of_ tf) w
      = (w', Raise e) ∧
    fs w' = fs (loop_world rank of_ tf i num rs1 w) ∧
    opened w' = opened w.
Proof.
  revert rs1 i num w. induction bs1 as [|b1 bs1 IH];
    intros rs1 i num w Hof Htf Hrs Hbad.
  - injection Hrs as <-. simpl in Hbad. rewrite Nat.add_0_r in Hbad.
    cbn [app for_enumerate loop_world]. rewrite bind_run.
    destruct (loop_body_raise rank args m of_ tf i b num w e Hbad)
      as (w' & -> & Hfs & Hop & _).
    by exists w'.
  - cbn [loop_outs] in Hrs.
    destruct (batch_out rank args m i b1) as [r|e'] eqn:Hb1; [|done].
    destruct (loop_outs rank args m (S i) bs1) as [rs'|e'] eqn:Hbs; [|done].
    injection Hrs as <-.
    cbn [app for_enumerate loop_world]. rewrite bind_run.
    rewrite (loop_body_run _ _ _ _ _ _ _ _ _ r) by done.
    destruct (IH rs' (S i) (num + sentences r) (body_world rank of_ tf i num r w))
      as (w' & Hrun & Hfs & Hop).
    + by rewrite opened_body_world.
    + by rewrite opened_body_world.
    + done.
    + cbn [length] in Hbad. by replace (S i + length bs1) with (i + S (length bs1)) by lia.
    + exists w'. split_and!; [done | done |]. by rewrite Hop, opened_body_world.
Qed.
End bad_batch.

(** X6. A batch that fails before its turn writes anything: it does not
    unpack, or its [src_ids] or what the model returns for it has no
    dimension (lines 130-142). When the batches before it are as expected, a
    run (with a known model extension, the rank directory made and no
    directory in the way of a file) ends in a [ValueError] or a [TypeError],
    and the two files keep exactly the lines of the batches before it:
    nothing of the bad batch or of a later one is written, and what was
    written is not taken back. *)
Theorem bad_batch_keeps_earlier_lines `{NeMo} (rank world_size : nat)
    (args : Namespace) (w : world) (m0 : MTEncDecModel)
    (bs1 : list (list tensor)) (b : list tensor) (bs2 : list (list tensor))
    (rs1 : list batch_result) :
  loaded args = Some m0 →
  (makedirs_exist_ok (rank_dir args rank) w).2 = Return tt →
  fs w !! originals_file_name args rank ≠ Some Dir →
  fs w !! translations_file_name args rank ≠ Some Dir →
  loader rank world_size args (ready_model rank args m0) = bs1 ++ b :: bs2 →
  loop_outs rank args (ready_model rank args m0) 0 bs1 = Return rs1 →
  ¬ batch_ok rank args (ready_model rank args m0) (length bs1) b →
  ∃ w' e,
    translate rank world_size args w = (w', Raise e) ∧
    ((∃ msg, e = ValueError msg) ∨ (∃ msg, e = TypeError msg)) ∧
    fs w' !! originals_file_name args rank =
      Some (File (concat (map original_lines rs1))) ∧
    fs w' !! translations_file_name args rank =
      Some (File (concat (map translation_lines rs1))).
Proof.
  intros Hm0 Hdir Hof Htf Hloader Hrs Hnok.
  destruct (batch_out rank args (ready_model rank args m0) (length bs1) b)
    as [r|e] eqn:Hbad.
  { destruct Hnok. apply batch_out_ok_iff. by eexists. }
  rewrite translate_run, Hm0. cbv zeta.
  set (w1 := log_all (load_log args) (setup_world rank world_size args w)).
  set (m := ready_model rank args m0) in *.
  assert ((makedirs_exist_ok (rank_dir args rank) w1).2 = Return tt) as Hdir1.
  { rewrite <- Hdir. by rewrite !makedirs_exist_ok_run. }
  destruct (makedirs_exist_ok (rank_dir args rank) w1) as [w2 r2] eqn:Hmk.
  cbn [snd] in Hdir1. subst r2.
  apply (makedirs_ok rank args) in Hmk as (_ & _ & Hof1 & Htf1 & _).
  change (fs w1) with (fs w) in Hof1, Htf1.
  pose proof (originals_ne_translations args rank) as Hne.
  assert (fs w2 !! originals_file_name args rank ≠ Some Dir) as Hof2
    by (by rewrite Hof1).
  assert (fs w2 !! translations_file_name args rank ≠ Some Dir) as Htf2
    by (by rewrite Htf1).
  unfold with_block. rewrite with_files_run by done. rewrite Hloader.
  pose proof (opened_opened_world _ _ w2 Hne Hof2 Htf2) as Hop.
  assert (originals_file_name args rank ∈
            opened (opened_world (originals_file_name args rank)
                      (translations_file_name args rank) w2)) as Hofin
    by (rewrite Hop; set_solver).
  assert (translations_file_name args rank ∈
            opened (opened_world (originals_file_name args rank)
                      (translations_file_name args rank) w2)) as Htfin
    by (rewrite Hop; set_solver).
  destruct (loop_fail_run rank _ _ args m bs1 b bs2 rs1 e 0 0 _ Hofin Htfin Hrs Hbad)
    as (w' & -> & Hfs & _).
  cbn [fst snd]. eexists _, e. split; [done|].
  split; [by eapply batch_out_exn|].
  rewrite !fs_closed_world, Hfs. split.
  - rewrite (fs_loop_world_file rank _ _ rs1 0 0 _ _ Hofin).
    + by rewrite content_loop_world_of, content_opened_world_of.
    + rewrite fs_opened_world, lookup_insert_ne, lookup_insert_eq by done.
      by eexists.
  - rewrite (fs_loop_world_file rank _ _ rs1 0 0 _ _ Htfin).
    + by rewrite content_loop_world_tf, content_opened_world_tf.
    + rewrite fs_opened_world, lookup_insert_eq by done. by eexists.
Qed.

Lemma bad_batch_keeps_earlier_lines_witness :
  ∃ w' e,
    translate (H:=Faulty.nemo) 0 1 (Faulty.args "bad.tar") Toy.empty_world =
      (w', Raise e) ∧
    ((∃ msg, e = ValueError msg) ∨ (∃ msg, e = TypeError msg)) ∧
    fs w' !! originals_file_name (Faulty.args "bad.tar") 0 =
      Some (File ["1 2" +:+ nl; "3 4" +:+ nl]) ∧
    fs w' !! translations_file_name (Faulty.args "bad.tar") 0 =
      Some (File ["1 2" +:+ nl]).
Proof.
  apply (bad_batch_keeps_earlier_lines (H:=Faulty.nemo) 0 1
           (Faulty.args "bad.tar") Toy.empty_world
           (load_from_checkpoint "m.ckpt")
           [map collate1 [Toy.ids; Toy.mask]]
           (map collate1 [Toy.ids])
           [map collate1 [Toy.ids; Toy.mask]]
           [BatchResult 2 ["1 2" +:+ nl] ["1 2" +:+ nl; "3 4" +:+ nl]]).
  - reflexivity.
  - vm_compute. reflexivity.
  - vm_compute. discriminate.
  - vm_compute. discriminate.
  - reflexivity.
  - vm_compute. reflexivity.
  - intros (src_ids & src_mask & Hun & _). vm_compute in Hun. discriminate Hun.
Defined.

(** ** The two files, line by line *)

Lemma concat_lookup_aligned {A B} (xs : list (list A)) (ys : list (list B))
    (k : nat) (o : A) :
  Forall2 (λ x y, length x = length y) xs ys →
  concat xs !! k = Some o →
  ∃ j x y i,
    xs !! j = Some x ∧ ys !! j = Some y ∧ x !! i = Some o ∧
    concat ys !! k = y !! i.
Proof.
  intros Hall. revert k.
  induction Hall as [|x y xs ys Hlen _ IH]; intros k; [done|].
  cbn [concat]. destruct (decide (k < length x)) as [Hk|Hk].
  - rewrite lookup_app_l by done. intros Hx.
    exists 0, x, y, k. split_and!; try done.
    by rewrite lookup_app_l by lia.
  - rewrite lookup_app_r by lia. intros Hx.
    destruct (IH _ Hx) as (j & x' & y' & i & Hj1 & Hj2 & Hi & Hc).
    exists (S j), x', y', i. split_and!; try done.
    rewrite lookup_app_r by lia. by rewrite <- Hlen.
Qed.

Section line_by_line.
Context `{NeMo}.

Lemma loop_outs_lookup rank args m bs i rs j r :
  loop_outs rank args m i bs = Return rs →
  rs !! j = Some r →
  ∃ b, bs !! j = Some b ∧ batch_out rank args m (i + j) b = Return r.
Proof.
  revert i rs j. induction bs as [|b bs IH]; intros i rs j.
  - by intros [= <-].
  - cbn [loop_outs].
    destruct (batch_out rank args m i b) as [r0|e] eqn:Hb; [|done].
    destruct (loop_outs rank args m (S i) bs) as [rs'|e] eqn:Hbs; [|done].
    intros [= <-]. destruct j as [|j]; simpl.
    + intros [= <-]. exists b. by rewrite Nat.add_0_r.
    + intros Hj. destruct (IH _ _ _ Hbs Hj) as (b' & Hb' & Hout).
      exists b'. split; [done|].
      by replace (i + S j) with (S i + j) by lia.
Qed.

Lemma batch_out_lines rank args m j batch r :
  one_output_per_input →
  batch_out rank args m j batch = Return r →
  ∃ src_ids src_mask len,
    unpack (twoside args) (map (prepared rank) batch) = Return (src_ids, src_mask) ∧
    tensor_len src_ids = Return len ∧
    length (original_lines r) = length (translation_lines r) ∧
    ∀ i o, original_lines r !! i = Some o →
      i < len ∧
      o = original_text args m (row src_ids i) +:+ nl ∧
      translation_lines r !! i =
        Some (translation_text args m
                (row (to Cpu (forward m j src_ids src_mask)) i) +:+ nl).
Proof.
  intros Hfwd. unfold batch_out.
  destruct (unpack _ _) as [[src_ids src_mask]|e] eqn:Hun; [|done].
  destruct (tensor_len src_ids) as [k|e] eqn:Hlen; [|done].
  pose proof (Hfwd m j src_ids src_mask k Hlen) as Hlen'.
  unfold rows. cbn [to shape].
  unfold tensor_len in Hlen, Hlen'.
  destruct (shape src_ids) as [|k1 s1] eqn:Hs1; [done|].
  destruct (shape (forward m j src_ids src_mask)) as [|k2 s2] eqn:Hs2; [done|].
  injection Hlen as ->. injection Hlen' as ->.
  intros [= <-]. exists src_ids, src_mask, k.
  cbn [original_lines translation_lines].
  split; [done|]. split; [unfold tensor_len; by rewrite Hs1|].
  split; [by rewrite !length_map|].
  intros i o. rewrite !map_fmap, !list_lookup_fmap.
  destruct (seq 0 k !! i) as [i'|] eqn:Hi; [|done].
  apply lookup_seq in Hi as [-> Hi]. simpl. intros [= <-]. done.
Qed.

Lemma batch_out_originals rank args m j batch r :
  batch_out rank args m j batch = Return r →
  length (original_lines r) = sentences r.
Proof.
  unfold batch_out.
  destruct (unpack _ _) as [[src_ids src_mask]|e]; [|done].
  destruct (tensor_len src_ids) as [k|e] eqn:Hlen; [|done].
  destruct (rows (to Cpu _)) as [ts|e]; [|done].
  destruct (rows src_ids) as [os|e] eqn:Hos; [|done].
  intros [= <-]. cbn [original_lines sentences].
  rewrite length_map. by apply (rows_length _ _ _ Hos).
Qed.

Lemma loop_outs_originals rank args m bs i rs :
  loop_outs rank args m i bs = Return rs →
  length (concat (map original_lines rs)) = total_sentences rs.
Proof.
  revert i rs. induction bs as [|b bs IH]; intros i rs.
  - by intros [= <-].
  - cbn [loop_outs].
    destruct (batch_out rank args m i b) as [r|e] eqn:Hb; [|done].
    destruct (loop_outs rank args m (S i) bs) as [rs'|e] eqn:Hbs; [|done].
    intros [= <-]. cbn [map concat total_sentences foldr].
    by rewrite length_app, (batch_out_originals _ _ _ _ _ _ Hb), (IH _ _ Hbs).
Qed.
End line_by_line.

(** X8. The two files are parallel. When the model gives one output sequence
    per input sequence, a run that completes leaves the files such that line
    [k] of [originals.txt] and line [k] of [translations.txt] come from the
    same sentence: there is a batch of the loader and a row [i] of its
    [src_ids] such that the first is the detokenized text of that row and the
    second is the detokenized text of row [i] of the model's output for
    that batch. *)
Theorem files_are_parallel `{NeMo} (rank world_size : nat) (args : Namespace)
    (w w' : world) (n : nat) :
  one_output_per_input →
  translate rank world_size args w = (w', Return n) →
  ∃ m0 originals translations,
    loaded args = Some m0 ∧
    fs w' !! originals_file_name args rank = Some (File originals) ∧
    fs w' !! translations_file_name args rank = Some (File translations) ∧
    ∀ k o, originals !! k = Some o →
      ∃ batch_idx batch src_ids src_mask len i,
        loader rank world_size args (ready_model rank args m0) !! batch_idx
          = Some batch ∧
        unpack (twoside args) (map (prepared rank) batch)
          = Return (src_ids, src_mask) ∧
        tensor_len src_ids = Return len ∧ i < len ∧
        o = original_text args (ready_model rank args m0) (row src_ids i)
              +:+ nl ∧
        translations !! k =
          Some (translation_text args (ready_model rank args m0)
                  (row (to Cpu (forward (ready_model rank args m0) batch_idx
                                  src_ids src_mask)) i) +:+ nl).
Proof.
  intros Hfwd Hrun.
  destruct (translate_completed _ _ _ _ _ _ Hrun)
    as (m0 & rs & Hm0 & Hrs & _ & _ & Hof & Htf & _).
  exists m0, (concat (map original_lines rs)),
    (concat (map translation_lines rs)).
  split_and!; try done. intros k o Hk.
  assert (Forall2 (λ x y : list string, length x = length y)
            (map original_lines rs) (map translation_lines rs)) as Hall.
  { rewrite !map_fmap. apply Forall2_fmap, Forall2_same_length_lookup.
    split; [done|]. intros j r r' Hj Hj'. simplify_eq.
    destruct (loop_outs_lookup _ _ _ _ _ _ _ _ Hrs Hj) as (b & _ & Hb).
    by destruct (batch_out_lines _ _ _ _ _ _ Hfwd Hb) as (? & ? & ? & _ & _ & ? & _). }
  destruct (concat_lookup_aligned _ _ _ _ Hall Hk)
    as (j & x & y & i & Hx & Hy & Hi & Hc).
  rewrite map_fmap, list_lookup_fmap in Hx, Hy.
  destruct (rs !! j) as [r|] eqn:Hj; [|done].
  injection Hx as <-. injection Hy as <-.
  destruct (loop_outs_lookup _ _ _ _ _ _ _ _ Hrs Hj) as (b & Hbj & Hb).
  destruct (batch_out_lines _ _ _ _ _ _ Hfwd Hb)
    as (src_ids & src_mask & len & Hun & Hlen & _ & Hlines).
  destruct (Hlines _ _ Hi) as (Hlt & -> & Ht).
  exists j, b, src_ids, src_mask, len, i. split_and!; try done.
  by rewrite Hc.
Qed.

Lemma files_are_parallel_witness :
  ∃ m0 originals translations,
    loaded (Toy.args "m.nemo" "en" "de" false) = Some m0 ∧
    fs (translate 0 1 (Toy.args "m.nemo" "en" "de" false) Toy.empty_world).1
      !! originals_file_name (Toy.args "m.nemo" "en" "de" false) 0
      = Some (File originals) ∧
    fs (translate 0 1 (Toy.args "m.nemo" "en" "de" false) Toy.empty_world).1
      !! translations_file_name (Toy.args "m.nemo" "en" "de" false) 0
      = Some (File translations) ∧
    ∀ k o, originals !! k = Some o →
      ∃ batch_idx batch src_ids src_mask len i,
        loader 0 1 (Toy.args "m.nemo" "en" "de" false)
          (ready_model 0 (Toy.args "m.nemo" "en" "de" false) m0) !! batch_idx
          = Some batch ∧
        unpack false (map (prepared 0) batch) = Return (src_ids, src_mask) ∧
        tensor_len src_ids = Return len ∧ i < len ∧
        o = original_text (Toy.args "m.nemo" "en" "de" false)
              (ready_model 0 (Toy.args "m.nemo" "en" "de" false) m0)
              (row src_ids i) +:+ nl ∧
        translations !! k =
          Some (translation_text (Toy.args "m.nemo" "en" "de" false)
                  (ready_model 0 (Toy.args "m.nemo" "en" "de" false) m0)
                  (row (to Cpu (forward
                          (ready_model 0 (Toy.args "m.nemo" "en" "de" false) m0)
                          batch_idx src_ids src_mask)) i) +:+ nl).
Proof.
  apply (files_are_parallel (H:=Toy.toy) 0 1
           (Toy.args "m.nemo" "en" "de" false) Toy.empty_world _ 4).
  - intros m i src_ids src_mask k Hk. exact Hk.
  - vm_compute. reflexivity.
Defined.

(** X9. The count of the originals needs no assumption on the model: a run
    that completes leaves [originals.txt] with exactly
    [num_translated_sentences] lines, since both come from [src_ids]
    (lines 139 and 148). Only the number of lines of [translations.txt]
    depends on what the model returns. *)
Theorem originals_count_is_the_sentence_count `{NeMo} (rank world_size : nat)
    (args : Namespace) (w w' : world) (num_translated_sentences : nat) :
  translate rank world_size args w = (w', Return num_translated_sentences) →
  ∃ originals,
    fs w' !! originals_file_name args rank = Some (File originals) ∧
    length originals = num_translated_sentences.
Proof.
  intros Hrun.
  destruct (translate_completed _ _ _ _ _ _ Hrun)
    as (m0 & rs & _ & Hrs & -> & _ & Hof & _).
  eexists. split; [exact Hof|]. by apply (loop_outs_originals _ _ _ _ _ _ Hrs).
Qed.

Lemma originals_count_is_the_sentence_count_witness :
  ∃ originals,
    fs (translate (H:=Faulty.nemo) 0 1 (Faulty.args "ok.tar") Toy.empty_world).1
      !! originals_file_name (Faulty.args "ok.tar") 0 = Some (File originals) ∧
    length originals = 2.
Proof.
  apply (originals_count_is_the_sentence_count (H:=Faulty.nemo) 0 1
           (Faulty.args "ok.tar") Toy.empty_world).
  vm_compute. reflexivity.
Defined.
